(** * Campus Navigator: the graph store, the shortest-path engine and the
      meeting-point selector

    A shallow embedding of [graph.h] and of the path-finding part of
    [application.cpp], with the properties of the design document stated over
    it.

    Conventions of the embedding.
    - [long long] vertex identifiers are integers ([Z]); no arithmetic is done
      on them, only comparisons (among them the comparison with the [-1]
      that marks a missing predecessor).
    - [double] values (edge weights, distances, coordinates) are modelled by
      exact integers: the development describes the runs in which the double
      arithmetic is exact (integer-valued weights whose sums stay below
      2^53, say).  [INF] is the integer value of
      [numeric_limits<double>::max()].
    - [int] counters are 32-bit: an increment is written with its
      two's-complement wrap-around.
    - [unordered_map] and [map] are finite maps ([gmap]), a [vector] is a
      list, a [set<long long>] that is iterated is a sorted duplicate-free
      list, a [set] that is only queried is a [gset].
    - [std::priority_queue] is an interface ([PriorityQueue]): which of
      several entries of equal priority is served first is left to the
      instance. *)

From Stdlib Require Import ZArith Lia.
From stdpp Require Import gmap strings list fin_maps sorting.

Local Open Scope Z_scope.

(** ** Machine integers *)

Definition INT_MAX : Z := 2 ^ 31 - 1.

(** The value of an [int] after an arithmetic result [z] is stored in it. *)
Definition wrap_int (z : Z) : Z := (z + 2 ^ 31) mod 2 ^ 32 - 2 ^ 31.

(** ** graph.h: the weighted directed graph *)

Module Graph.

Record EdgeData := mkEdge { toVert : Z; toWeight : Z }.

Record graph := mkGraph {
  vertCount : Z;
  edgeCount : Z;
  Vertices : list Z;
  edgeMap : gmap Z (list EdgeData)
}.

(** The constructor. *)
Definition empty : graph :=
  {| vertCount := 0; edgeCount := 0; Vertices := []; edgeMap := ∅ |}.

Definition NumVertices (g : graph) : Z := vertCount g.
Definition NumEdges (g : graph) : Z := edgeCount g.

(** [edgeMap.count(v)] *)
Definition count (v : Z) (g : graph) : bool := bool_decide (is_Some (edgeMap g !! v)).

Definition addVertex (v : Z) (g : graph) : bool * graph :=
  if count v g then (false, g)
  else (true,
        {| vertCount := wrap_int (vertCount g + 1);
           edgeCount := edgeCount g;
           Vertices := Vertices g ++ [v];
           edgeMap := <[v := []]> (edgeMap g) |}).

(** The scan of [addEdge] over the adjacency vector of [from]: the first
    entry whose target is [to] gets the new weight; [None] when no entry
    has that target. *)
Fixpoint overwrite (to : Z) (weight : Z) (es : list EdgeData) : option (list EdgeData) :=
  match es with
  | [] => None
  | e :: es' =>
      if bool_decide (toVert e = to)
      then Some ({| toVert := toVert e; toWeight := weight |} :: es')
      else cons e <$> overwrite to weight es'
  end.

Definition addEdge (from to : Z) (weight : Z) (g : graph) : bool * graph :=
  if negb (count from g) || negb (count to g) then (false, g)
  else
    let searchVector := default [] (edgeMap g !! from) in
    match overwrite to weight searchVector with
    | Some es' =>
        (true,
         {| vertCount := vertCount g; edgeCount := edgeCount g;
            Vertices := Vertices g;
            edgeMap := <[from := es']> (edgeMap g) |})
    | None =>
        (true,
         {| vertCount := vertCount g;
            edgeCount := wrap_int (edgeCount g + 1);
            Vertices := Vertices g;
            edgeMap :=
              <[from := searchVector ++ [{| toVert := to; toWeight := weight |}]]>
                (edgeMap g) |})
    end.

(** The scan of [getWeight]: the weight of the first entry with target [to]. *)
Fixpoint findWeight (to : Z) (es : list EdgeData) : option Z :=
  match es with
  | [] => None
  | e :: es' => if bool_decide (toVert e = to) then Some (toWeight e) else findWeight to es'
  end.

(** [getWeight] returns [true] and writes the reference parameter ([Some w]),
    or returns [false] and leaves it as it was ([None]). *)
Definition getWeight (from to : Z) (g : graph) : option Z :=
  if negb (count from g) || negb (count to g) then None
  else findWeight to (default [] (edgeMap g !! from)).

(** [std::set<long long>::insert] on the sorted, duplicate-free sequence of
    the set's elements. *)
Fixpoint set_insert (x : Z) (s : list Z) : list Z :=
  match s with
  | [] => [x]
  | y :: s' =>
      if bool_decide (x < y) then x :: s
      else if bool_decide (x = y) then s
      else y :: set_insert x s'
  end.

Definition neighbors (v : Z) (g : graph) : list Z :=
  if negb (count v g) then []
  else foldl (fun S e => set_insert (toVert e) S) [] (default [] (edgeMap g !! v)).

Definition getVertices (g : graph) : list Z := Vertices g.

(** Sequences of construction operations. *)
Inductive op :=
| AddVertex (v : Z)
| AddEdge (from to : Z) (weight : Z).

Definition apply_op (g : graph) (o : op) : graph :=
  match o with
  | AddVertex v => (addVertex v g).2
  | AddEdge from to weight => (addEdge from to weight g).2
  end.

Definition build (ops : list op) : graph := foldl apply_op empty ops.

(** The vertices named by the [addVertex] calls of a sequence. *)
Definition added_vertices (ops : list op) : gset Z :=
  list_to_set (omap (fun o => match o with AddVertex v => Some v | _ => None end) ops).

(** The adjacency vector of [v] (empty when [v] is no vertex). *)
Definition adj (g : graph) (v : Z) : list EdgeData := default [] (edgeMap g !! v).

(** The directed pairs [(from, to)] stored in the graph. *)
Definition present_pairs (g : graph) : gset (Z * Z) :=
  ⋃ ((fun v => list_to_set ((fun e => (v, toVert e)) <$> adj g v)) <$> Vertices g).

End Graph.

(** ** Results of partial operations *)

(** How a call of the program ends.  [OutOfRange] is the [std::out_of_range]
    that [at()] throws (nothing in the program catches it); [Undefined] is a
    read of a variable that was never assigned; [OutOfFuel] belongs to the
    model only: the loop budget handed to a loop was used up. *)
Inductive outcome (A : Type) : Type :=
| Returns (a : A)
| OutOfRange
| Undefined
| OutOfFuel.
Arguments Returns {A} a.
Arguments OutOfRange {A}.
Arguments Undefined {A}.
Arguments OutOfFuel {A}.

Global Instance outcome_ret : MRet outcome := fun A a => Returns a.
Global Instance outcome_bind : MBind outcome := fun A B f m =>
  match m with
  | Returns a => f a
  | OutOfRange => OutOfRange
  | Undefined => Undefined
  | OutOfFuel => OutOfFuel
  end.

(** [m.at(k)] on a map. *)
Definition map_at {V : Type} (m : gmap Z V) (k : Z) : outcome V :=
  match m !! k with
  | Some v => Returns v
  | None => OutOfRange
  end.

(** [v.at(i)] on a vector, the index given as the [int] the program holds:
    converted to [size_t], a negative index is far beyond any size. *)
Definition vector_at {A : Type} (v : list A) (i : Z) : outcome A :=
  if bool_decide (i < 0) then OutOfRange
  else match v !! Z.to_nat i with
       | Some x => Returns x
       | None => OutOfRange
       end.

(** A read of a local variable that may not have been assigned yet. *)
Definition read {A : Type} (x : option A) : outcome A :=
  match x with
  | Some a => Returns a
  | None => Undefined
  end.

(** [m.emplace(k, v)]: no effect when the key is present. *)
Definition emplace {V : Type} (k : Z) (v : V) (m : gmap Z V) : gmap Z V :=
  match m !! k with
  | Some _ => m
  | None => <[k := v]> m
  end.

(** A loop over a container whose body may fail. *)
Fixpoint foldM {A B : Type} (f : A -> B -> outcome A) (l : list B) (a : A) : outcome A :=
  match l with
  | [] => Returns a
  | x :: l' => a' ← f a x; foldM f l' a'
  end.

(** ** application.cpp: the shortest-path engine *)

Module Engine.
Import Graph.

(** [numeric_limits<double>::max()], which is an integer:
    (2 - 2^-52) * 2^1023. *)
Definition INF : Z := 2 ^ 1024 - 2 ^ 971.

(** The comparator of the queue, on pairs (vertex, distance). *)
Definition prioritize (p1 p2 : Z * Z) : bool := bool_decide (p1.2 > p2.2).

(** [std::priority_queue<pair<long long, double>, ..., prioritize>].
    [pq_pop] is [top()] followed by [pop()], [None] on an empty queue;
    [pq_items] lists the entries the queue holds.  The entry served is one
    that [prioritize] puts behind no other; nothing more is fixed. *)
Class PriorityQueue (Q : Type) := {
  pq_new : Q;
  pq_push : Z * Z -> Q -> Q;
  pq_pop : Q -> option ((Z * Z) * Q);
  pq_items : Q -> list (Z * Z);
  pq_new_items : pq_items pq_new = [];
  pq_push_items : forall x q, pq_items (pq_push x q) ≡ₚ x :: pq_items q;
  pq_pop_empty : forall q, pq_pop q = None <-> pq_items q = [];
  pq_pop_items : forall q x q', pq_pop q = Some (x, q') -> pq_items q ≡ₚ x :: pq_items q';
  pq_pop_top : forall q x q' y,
    pq_pop q = Some (x, q') -> y ∈ pq_items q -> prioritize x y = false
}.

(** The local state of a [Dijkstra] call. *)
Record dstate (Q : Type) := mkState {
  unvisitedQ : Q;
  distances : gmap Z Z;
  predecessors : gmap Z Z;
  visitedVertices : gset Z;
  currentV : option Z;
  edgeWeight : option Z
}.
Arguments mkState {Q}.
Arguments unvisitedQ {Q}.
Arguments distances {Q}.
Arguments predecessors {Q}.
Arguments visitedVertices {Q}.
Arguments currentV {Q}.
Arguments edgeWeight {Q}.

(** How an iteration of a loop ends. *)
Inductive flow := Continue | Break.

Section Dijkstra.
Context {Q : Type} `{PriorityQueue Q}.

Definition initial : dstate Q :=
  {| unvisitedQ := pq_new; distances := ∅; predecessors := ∅;
     visitedVertices := ∅; currentV := None; edgeWeight := None |}.

(** The body of the set-up loop over the vertices of the graph. *)
Definition init_vertex (st : dstate Q) (v : Z) : outcome (dstate Q) :=
  let distances' := emplace v INF (distances st) in
  let predecessors' := emplace v (-1) (predecessors st) in
  d ← map_at distances' v;
  mret {| unvisitedQ := pq_push (v, d) (unvisitedQ st);
          distances := distances';
          predecessors := predecessors';
          visitedVertices := visitedVertices st;
          currentV := currentV st;
          edgeWeight := edgeWeight st |}.

(** The body of the loop over the neighbours of [currentV]. *)
Definition relax (G : graph) (cur : Z) (st : dstate Q) (adjV : Z) : outcome (dstate Q) :=
  let edgeWeight' :=
    match getWeight cur adjV G with
    | Some w => Some w
    | None => edgeWeight st
    end in
  dcur ← map_at (distances st) cur;
  w ← read edgeWeight';
  let altPathDistance := dcur + w in
  dadj ← map_at (distances st) adjV;
  if bool_decide (altPathDistance < dadj) then
    mret {| unvisitedQ := pq_push (adjV, altPathDistance) (unvisitedQ st);
            distances := <[adjV := altPathDistance]> (distances st);
            predecessors := <[adjV := cur]> (predecessors st);
            visitedVertices := visitedVertices st;
            currentV := currentV st;
            edgeWeight := edgeWeight' |}
  else
    mret {| unvisitedQ := unvisitedQ st;
            distances := distances st;
            predecessors := predecessors st;
            visitedVertices := visitedVertices st;
            currentV := currentV st;
            edgeWeight := edgeWeight' |}.

(** The body of the main loop once the top entry has been taken off the
    queue: [Break] and [Continue] tell how the iteration leaves the body
    (falling off its end continues the loop, too). *)
Definition visit (G : graph) (endV : Z) (top : Z * Z) (q' : Q) (st : dstate Q)
  : outcome (flow * dstate Q) :=
  let st1 :=
    {| unvisitedQ := q';
       distances := distances st;
       predecessors := predecessors st;
       visitedVertices := visitedVertices st;
       currentV := Some top.1;
       edgeWeight := edgeWeight st |} in
  d ← map_at (distances st1) top.1;
  if bool_decide (d = INF) then mret (Break, st1)
  else if bool_decide (top.1 ∈ visitedVertices st1) then mret (Continue, st1)
  else
    let st2 :=
      {| unvisitedQ := unvisitedQ st1;
         distances := distances st1;
         predecessors := predecessors st1;
         visitedVertices := {[ top.1 ]} ∪ visitedVertices st1;
         currentV := currentV st1;
         edgeWeight := edgeWeight st1 |} in
    st3 ← foldM (relax G top.1) (neighbors top.1 G) st2;
    if bool_decide (top.1 = endV) then mret (Break, st3) else mret (Continue, st3).

(** The main loop, [while (!unvisitedQ.empty())], with a budget of
    iterations. *)
Fixpoint scan (fuel : nat) (G : graph) (endV : Z) (st : dstate Q) : outcome (dstate Q) :=
  match fuel with
  | O => OutOfFuel
  | S fuel' =>
      match pq_pop (unvisitedQ st) with
      | None => mret st
      | Some (top, q') =>
          r ← visit G endV top q' st;
          match r.1 with
          | Break => mret r.2
          | Continue => scan fuel' G endV r.2
          end
      end
  end.

(** The walk back along the predecessors, [while (backTrace != -1)]. *)
Fixpoint backTrace (fuel : nat) (preds : gmap Z Z) (bt : Z) (path : list Z)
  : outcome (list Z) :=
  match fuel with
  | O => OutOfFuel
  | S fuel' =>
      if bool_decide (bt ≠ -1) then
        next ← map_at preds bt;
        backTrace fuel' preds next (path ++ [bt])
      else mret path
  end.

(** [Dijkstra(G, startV, endV, path)]: the returned [double] and the vector
    [path] as the call leaves it.  Each of the two [while] loops may run
    [fuel] times. *)
Definition Dijkstra (fuel : nat) (G : graph) (startV endV : Z) (path : list Z)
  : outcome (Z * list Z) :=
  st0 ← foldM init_vertex (getVertices G) initial;
  _ ← map_at (distances st0) startV;
  let distances1 := <[startV := 0]> (distances st0) in
  d0 ← map_at distances1 startV;
  let st1 :=
    {| unvisitedQ := pq_push (startV, d0) (unvisitedQ st0);
       distances := distances1;
       predecessors := predecessors st0;
       visitedVertices := visitedVertices st0;
       currentV := currentV st0;
       edgeWeight := edgeWeight st0 |} in
  st ← scan fuel G endV st1;
  cur ← read (currentV st);
  if bool_decide (cur ≠ endV) then mret (-1, path)
  else
    let path1 := path ++ [endV] in
    bt ← map_at (predecessors st) endV;
    path2 ← backTrace fuel (predecessors st) bt path1;
    d ← map_at (distances st) endV;
    mret (d, path2).

(** A budget that suffices for both loops of [Dijkstra] on a well-formed
    graph with non-negative weights: the queue receives an entry per vertex,
    one for the start and at most one per edge. *)
Definition work (G : graph) : nat :=
  length (Vertices G) + sum_list ((fun v => length (neighbors v G)) <$> Vertices G) + 2.

End Dijkstra.

(** A queue that keeps its entries in a list, newest first, and serves the
    first entry that [prioritize] puts behind no other. *)
Fixpoint list_pop (l : list (Z * Z)) : option ((Z * Z) * list (Z * Z)) :=
  match l with
  | [] => None
  | x :: l' =>
      match list_pop l' with
      | None => Some (x, [])
      | Some (y, r) => if prioritize x y then Some (y, x :: r) else Some (x, l')
      end
  end.

End Engine.

(** ** What the engine is to compute *)

Module Paths.
Import Graph.

(** [walk G s v L]: the graph has a walk from [s] to [v] along edges whose
    weights sum to [L]. *)
Inductive walk (G : graph) (s : Z) : Z -> Z -> Prop :=
| walk_start : walk G s s 0
| walk_edge u v w L : walk G s u L -> getWeight u v G = Some w -> walk G s v (L + w).

(** The weight of a vertex sequence listed from the target back to the
    source, as [Dijkstra] fills [path]: every vertex is joined to the one
    before it on the way (the next in the list) by an edge, and the weights
    are added up from the source on. [None] when some edge is missing or
    the list is empty. *)
Fixpoint path_weight (G : graph) (p : list Z) : option Z :=
  match p with
  | [] => None
  | v :: p' =>
      match p' with
      | [] => Some 0
      | u :: _ =>
          match getWeight u v G, path_weight G p' with
          | Some w, Some d => Some (d + w)
          | _, _ => None
          end
      end
  end.

Definition nonnegative (G : graph) : Prop :=
  forall u v w, getWeight u v G = Some w -> 0 <= w.

End Paths.

(** ** application.cpp: the meeting-point selector *)

Module Selector.
Import Graph Engine.

(** Modelled from the spec: [osm.h] is not among the sources.  The three
    records carry the fields [application.cpp] reads: a coordinate is a
    latitude, a longitude and a node id; a building is a full name, an
    abbreviation and one coordinate; a footway is an id and a sequence of
    node ids. *)
Record Coordinates := mkCoordinates { ID : Z; Lat : Z; Lon : Z }.
Record BuildingInfo := mkBuilding { Fullname : string; Abbrev : string; Coords : Coordinates }.
Record FootwayInfo := mkFootway { FootwayID : Z; Nodes : list Z }.

(** What one round of the application loop yields once both buildings were
    found: the route to the meeting point, or the message that the
    destination is unreachable. *)
Inductive answer :=
| Routed (centerBuilding : BuildingInfo) (centerCoords : Coordinates)
         (totalDistance1 : Z) (path1 : list Z) (totalDistance2 : Z) (path2 : list Z)
| DestinationUnreachable.

(** What a round does, in the order it does it: a call of
    [getCenterBuildingIndex] with the set [invalidCenters] it was given and
    the index it returned, a call of [Dijkstra] with its end points and the
    distance it returned, and the two messages of the failure paths. *)
Inductive event :=
| Selected (invalidCenters : gset string) (index : Z)
| Ran (startV endV : Z) (distance : Z)
| SaidUnreachable
| SaidRetry.

(** The number of rounds of the loop "find next closest building" in a log. *)
Definition is_retry (e : event) : bool :=
  match e with
  | SaidRetry => true
  | _ => false
  end.

Definition retries (log : list event) : nat := length (List.filter is_retry log).

(** A computation that logs events and may fail. *)
Definition prog (A : Type) : Type := list event * outcome A.

Global Instance prog_ret : MRet prog := fun A a => ([], Returns a).
Global Instance prog_bind : MBind prog := fun A B f m =>
  match m.2 with
  | Returns a => (m.1 ++ (f a).1, (f a).2)
  | OutOfRange => (m.1, OutOfRange)
  | Undefined => (m.1, Undefined)
  | OutOfFuel => (m.1, OutOfFuel)
  end.

Definition lift {A : Type} (o : outcome A) : prog A := ([], o).
Definition emit (e : event) : prog unit := ([e], Returns tt).

Section Application.
(** The two functions declared in [dist.h]; their definitions are not among
    the sources. *)
Variable distBetween2Points : Z -> Z -> Z -> Z -> Z.
Variable centerBetween2Points : Z -> Z -> Z -> Z -> Coordinates.
Context {Q : Type} `{PriorityQueue Q}.

(** The loop of [getCenterBuildingIndex] from index [i] on. *)
Fixpoint centerScan (midLat midLon : Z) (invalidCenters : gset string)
    (bs : list BuildingInfo) (i : Z) (min : Z) (minIndex : Z) : Z :=
  match bs with
  | [] => minIndex
  | b :: bs' =>
      if bool_decide (Fullname b ∈ invalidCenters)
      then centerScan midLat midLon invalidCenters bs' (i + 1) min minIndex
      else
        let distance := distBetween2Points midLat midLon (Lat (Coords b)) (Lon (Coords b)) in
        if bool_decide (distance < min)
        then centerScan midLat midLon invalidCenters bs' (i + 1) distance i
        else centerScan midLat midLon invalidCenters bs' (i + 1) min minIndex
  end.

Definition getCenterBuildingIndex (Buildings : list BuildingInfo) (midpoint : Coordinates)
    (invalidCenters : gset string) : Z :=
  centerScan (Lat midpoint) (Lon midpoint) invalidCenters Buildings 0 INF (-1).

(** The body of the inner loop of [getClosestNode]: the state is [min] and
    [minID], the latter unassigned at first. *)
Definition closestStep (nodes : gmap Z Coordinates) (buildLat buildLon : Z)
    (st : Z * option Z) (j : Z) : outcome (Z * option Z) :=
  c ← map_at nodes j;
  let distance := distBetween2Points buildLat buildLon (Lat c) (Lon c) in
  if bool_decide (distance < st.1) then mret (distance, Some j) else mret st.

Definition getClosestNode (nodes : gmap Z Coordinates) (Footways : list FootwayInfo)
    (building : BuildingInfo) : outcome Coordinates :=
  let buildLat := Lat (Coords building) in
  let buildLon := Lon (Coords building) in
  st ← foldM (fun st i => foldM (closestStep nodes buildLat buildLon) (Nodes i) st)
         Footways (INF, None);
  minID ← read st.2;
  map_at nodes minID.

(** One [Dijkstra] call of the application, logged. *)
Definition run (fuel : nat) (G : graph) (startV endV : Z) (path : list Z)
  : prog (Z * list Z) :=
  r ← lift (Dijkstra fuel G startV endV path);
  _ ← emit (Ran startV endV r.1);
  mret r.

(** The loop "find next closest building", at most [rounds] times round.
    The state is [invalidCenters] and [centerBuilding]; on leaving it the
    loop has set [centerBuilding], [centerCoords], the two distances and the
    two paths. *)
Fixpoint retry (rounds fuel : nat) (nodes : gmap Z Coordinates)
    (Footways : list FootwayInfo) (Buildings : list BuildingInfo) (G : graph)
    (midpoint p1Coords p2Coords : Coordinates)
    (invalidCenters : gset string) (centerBuilding : BuildingInfo)
  : prog (BuildingInfo * Coordinates * (Z * list Z) * (Z * list Z)) :=
  match rounds with
  | O => lift OutOfFuel
  | S rounds' =>
      _ ← emit SaidRetry;
      let invalidCenters' := {[ Fullname centerBuilding ]} ∪ invalidCenters in
      let index := getCenterBuildingIndex Buildings midpoint invalidCenters' in
      _ ← emit (Selected invalidCenters' index);
      centerBuilding' ← lift (vector_at Buildings index);
      centerCoords' ← lift (getClosestNode nodes Footways centerBuilding');
      r1 ← run fuel G (ID p1Coords) (ID centerCoords') [];
      r2 ← run fuel G (ID p2Coords) (ID centerCoords') [];
      if bool_decide (r1.1 = -1) || bool_decide (r2.1 = -1)
      then retry rounds' fuel nodes Footways Buildings G midpoint p1Coords p2Coords
             invalidCenters' centerBuilding'
      else mret (centerBuilding', centerCoords', r1, r2)
  end.

(** The two loops that print a path: the first walks [path] from its last
    index down to 1, then [first.at(0)] is printed. *)
Definition printPath (path first : list Z) : outcome unit :=
  match path with
  | [] => OutOfRange
  | _ :: _ => _ ← vector_at first 0; mret tt
  end.

(** One round of the loop of [application], from the point where both
    buildings have been found at [firstIndex] and [secondIndex]. *)
Definition query (rounds fuel : nat) (nodes : gmap Z Coordinates)
    (Footways : list FootwayInfo) (Buildings : list BuildingInfo) (G : graph)
    (firstIndex secondIndex : Z) : prog answer :=
  p1Building ← lift (vector_at Buildings firstIndex);
  p2Building ← lift (vector_at Buildings secondIndex);
  let midpoint :=
    centerBetween2Points (Lat (Coords p1Building)) (Lon (Coords p1Building))
                         (Lat (Coords p2Building)) (Lon (Coords p2Building)) in
  let index := getCenterBuildingIndex Buildings midpoint ∅ in
  _ ← emit (Selected ∅ index);
  centerBuilding ← lift (vector_at Buildings index);
  p1Coords ← lift (getClosestNode nodes Footways p1Building);
  p2Coords ← lift (getClosestNode nodes Footways p2Building);
  centerCoords ← lift (getClosestNode nodes Footways centerBuilding);
  r1 ← run fuel G (ID p1Coords) (ID centerCoords) [];
  r2 ← run fuel G (ID p2Coords) (ID centerCoords) [];
  rv ← run fuel G (ID p1Coords) (ID p2Coords) [];
  if bool_decide (rv.1 = -1) then
    _ ← emit SaidUnreachable;
    mret DestinationUnreachable
  else
    found ←
      (if bool_decide (r1.1 = -1) || bool_decide (r2.1 = -1)
       then retry rounds fuel nodes Footways Buildings G midpoint p1Coords p2Coords
              ∅ centerBuilding
       else mret (centerBuilding, centerCoords, r1, r2));
    let '(centerBuilding', centerCoords', r1', r2') := found in
    _ ← lift (printPath r1'.2 r1'.2);
    _ ← lift (printPath r2'.2 r1'.2);
    mret (Routed centerBuilding' centerCoords' r1'.1 r1'.2 r2'.1 r2'.2).

(** The graph [main] builds: a vertex per node, in the order of the node
    map (ascending ids), then for every footway an edge in both directions
    between consecutive nodes, weighted by their distance. *)
Definition addSegment (nodes : gmap Z Coordinates) (G : graph) (seg : Z * Z)
  : outcome graph :=
  fromCoords ← map_at nodes seg.1;
  toCoords ← map_at nodes seg.2;
  let weightAsDistance :=
    distBetween2Points (Lat fromCoords) (Lon fromCoords) (Lat toCoords) (Lon toCoords) in
  mret (addEdge seg.2 seg.1 weightAsDistance (addEdge seg.1 seg.2 weightAsDistance G).2).2.

(** The pairs [(at(j), at(j+1))] for [j] from 0 to [size() - 2]. *)
Fixpoint segments (ns : list Z) : list (Z * Z) :=
  match ns with
  | a :: ((b :: _) as ns') => (a, b) :: segments ns'
  | _ => []
  end.

Definition addFootway (nodes : gmap Z Coordinates) (G : graph) (i : FootwayInfo)
  : outcome graph :=
  match Nodes i with
  | [] => OutOfRange
  | _ => foldM (addSegment nodes) (segments (Nodes i)) G
  end.

Definition mainGraph (nodes : gmap Z Coordinates) (Footways : list FootwayInfo)
  : outcome graph :=
  let G0 := foldl (fun G id => (addVertex id G).2) Graph.empty
              (merge_sort Z.le (elements (dom nodes))) in
  foldM (addFootway nodes) Footways G0.

End Application.

(** Two functions to run the application with, in place of the geodesic
    ones of [dist.h]: the distance and the middle of two points of a plane
    with a rectangular street grid. *)
Definition planar_distance (lat1 long1 lat2 long2 : Z) : Z :=
  Z.abs (lat1 - lat2) + Z.abs (long1 - long2).

Definition planar_center (lat1 long1 lat2 long2 : Z) : Coordinates :=
  {| ID := 0; Lat := (lat1 + lat2) / 2; Lon := (long1 + long2) / 2 |}.

(** Five nodes in a row, four units apart. *)
Definition row_nodes : gmap Z Coordinates :=
  list_to_map [(1, mkCoordinates 1 0 0); (2, mkCoordinates 2 4 0);
               (3, mkCoordinates 3 8 0); (4, mkCoordinates 4 12 0);
               (5, mkCoordinates 5 16 0)].

(** Footways that join node 1 to node 3 and node 2 to the nodes 4 and 5,
    and three buildings of one name at the nodes 1, 2 and 3. *)
Definition bridge_footways : list FootwayInfo :=
  [mkFootway 100 [1; 3]; mkFootway 101 [2; 4]; mkFootway 102 [2; 5]].

Definition bridge_graph : graph :=
  build [AddVertex 1; AddVertex 2; AddVertex 3; AddVertex 4; AddVertex 5;
         AddEdge 1 3 8; AddEdge 3 1 8; AddEdge 2 4 8; AddEdge 4 2 8;
         AddEdge 2 5 12; AddEdge 5 2 12].

Definition halls : list BuildingInfo :=
  [mkBuilding "Hall" "HA" (mkCoordinates 11 0 0);
   mkBuilding "Hall" "HB" (mkCoordinates 12 4 0);
   mkBuilding "Hall" "HC" (mkCoordinates 13 8 0)].

(** Footways that join node 1 to the nodes 2 and 3 and node 4 to node 5,
    and three buildings at the nodes 1, 2 and 4. *)
Definition split_footways : list FootwayInfo :=
  [mkFootway 100 [1; 2]; mkFootway 101 [1; 3]; mkFootway 102 [4; 5]].

Definition split_graph : graph :=
  build [AddVertex 1; AddVertex 2; AddVertex 3; AddVertex 4; AddVertex 5;
         AddEdge 1 2 4; AddEdge 2 1 4; AddEdge 1 3 8; AddEdge 3 1 8;
         AddEdge 4 5 4; AddEdge 5 4 4].

Definition departments : list BuildingInfo :=
  [mkBuilding "Art" "A" (mkCoordinates 11 0 0);
   mkBuilding "Biology" "B" (mkCoordinates 12 4 0);
   mkBuilding "Chemistry" "C" (mkCoordinates 13 12 0)].

End Selector.

(** * Properties *)

(** ** The list queue is a priority queue *)

Section ListQueue.
Import Engine.

Lemma list_pop_None l : list_pop l = None <-> l = [].
Proof.
  destruct l as [|x l]; [done|]. cbn.
  destruct (list_pop l) as [[y r]|]; [|done].
  by destruct (prioritize x y).
Qed.

Lemma list_pop_perm l x r : list_pop l = Some (x, r) -> l ≡ₚ x :: r.
Proof.
  revert x r. induction l as [|a l IH]; intros x r Hpop; [done|].
  cbn in Hpop. destruct (list_pop l) as [[y r']|] eqn:E.
  - destruct (prioritize a y); injection Hpop as <- <-; [|done].
    rewrite (IH _ _ eq_refl). apply Permutation_swap.
  - injection Hpop as <- <-. apply list_pop_None in E. by subst.
Qed.

Lemma list_pop_min l x r y :
  list_pop l = Some (x, r) -> y ∈ l -> prioritize x y = false.
Proof.
  unfold prioritize. rewrite bool_decide_eq_false.
  revert x r y. induction l as [|a l IH]; intros x r y Hpop Hy; [done|].
  cbn in Hpop. destruct (list_pop l) as [[m r']|] eqn:E.
  - specialize (IH m r'). unfold prioritize in Hpop.
    case_bool_decide as Ham; injection Hpop as <- <-.
    + apply elem_of_cons in Hy as [->|Hy]; [lia | by eapply IH].
    + apply elem_of_cons in Hy as [->|Hy]; [lia|].
      specialize (IH y eq_refl Hy). lia.
  - injection Hpop as <- <-. apply list_pop_None in E. subst.
    apply list_elem_of_singleton in Hy as ->. lia.
Qed.

#[export] Instance list_queue : PriorityQueue (list (Z * Z)) := {|
  pq_new := [];
  pq_push := cons;
  pq_pop := list_pop;
  pq_items := fun q => q;
  pq_new_items := eq_refl;
  pq_push_items := fun x q => reflexivity (x :: q);
  pq_pop_empty := list_pop_None;
  pq_pop_items := list_pop_perm;
  pq_pop_top := fun q x q' y => list_pop_min q x q' y
|}.

End ListQueue.

(** ** The graph store *)

Section GraphFacts.
Import Graph.

Lemma wrap_int_small z : - 2 ^ 31 <= z <= INT_MAX -> wrap_int z = z.
Proof.
  unfold wrap_int, INT_MAX. intros Hz.
  rewrite Z.mod_small by lia. lia.
Qed.

Lemma count_true v g : count v g = true <-> is_Some (edgeMap g !! v).
Proof. unfold count. by rewrite bool_decide_eq_true. Qed.

Lemma count_false v g : count v g = false <-> edgeMap g !! v = None.
Proof.
  unfold count. rewrite bool_decide_eq_false. by rewrite eq_None_not_Some.
Qed.

Lemma overwrite_Some to w es es' :
  overwrite to w es = Some es' ->
  toVert <$> es' = toVert <$> es /\ findWeight to es' = Some w /\ to ∈ toVert <$> es
  /\ length es' = length es.
Proof.
  revert es'. induction es as [|e es IH]; intros es' H; csimpl in *; [done|].
  case_bool_decide as He.
  - injection H as <-. csimpl. rewrite bool_decide_eq_true_2 by done.
    repeat split; try done. rewrite <- He. apply list_elem_of_here.
  - destruct (overwrite to w es) as [es0|] eqn:E; csimpl in H; [|done].
    injection H as <-.
    destruct (IH es0 eq_refl) as (IH1 & IH2 & IH3 & IH4).
    csimpl. rewrite bool_decide_eq_false_2 by done.
    repeat split; [by rewrite IH1 | done | by apply list_elem_of_further | by rewrite IH4].
Qed.

Lemma overwrite_None to w es :
  overwrite to w es = None <-> to ∉ toVert <$> es.
Proof.
  induction es as [|e es IH]; csimpl.
  - split; [intros _; apply not_elem_of_nil | done].
  - case_bool_decide as He.
    + split; [done|]. intros H. exfalso. apply H. rewrite <- He. apply list_elem_of_here.
    + rewrite not_elem_of_cons. destruct (overwrite to w es); csimpl.
      * split; [done|]. intros [_ H]. by apply IH in H.
      * split; [|done]. intros _. split; [congruence | by apply IH].
Qed.

Lemma overwrite_other to w es es' t :
  overwrite to w es = Some es' -> t <> to -> findWeight t es' = findWeight t es.
Proof.
  revert es'. induction es as [|e es IH]; intros es' H Hne; csimpl in *; [done|].
  case_bool_decide as He.
  - injection H as <-. csimpl.
    rewrite !bool_decide_eq_false_2 by congruence. done.
  - destruct (overwrite to w es) as [es0|] eqn:E; csimpl in H; [|done].
    injection H as <-. csimpl.
    case_bool_decide; [done|]. by apply IH.
Qed.

Lemma findWeight_app_new to w es :
  to ∉ toVert <$> es ->
  findWeight to (es ++ [{| toVert := to; toWeight := w |}]) = Some w.
Proof.
  induction es as [|e es IH]; csimpl; intros H.
  - by rewrite bool_decide_eq_true_2.
  - apply not_elem_of_cons in H as [H1 H2].
    rewrite bool_decide_eq_false_2 by congruence. by apply IH.
Qed.

Lemma findWeight_Some to es :
  is_Some (findWeight to es) <-> to ∈ toVert <$> es.
Proof.
  induction es as [|e es IH]; csimpl.
  - split; [by intros [? ?] | by intros ?%elem_of_nil].
  - case_bool_decide as He.
    + split; [intros _; rewrite <- He; apply list_elem_of_here | eauto].
    + rewrite IH, elem_of_cons. split; [by right | by intros [?|?]].
Qed.

Lemma getWeight_adj a b g :
  count a g = true -> count b g = true -> getWeight a b g = findWeight b (adj g a).
Proof. intros Ha Hb. unfold getWeight. by rewrite Ha, Hb. Qed.

(** What a successful [addEdge] does to the graph. *)
Lemma addEdge_present a b w g :
  count a g = true -> count b g = true ->
  (addEdge a b w g).1 = true
  /\ Vertices (addEdge a b w g).2 = Vertices g
  /\ vertCount (addEdge a b w g).2 = vertCount g
  /\ (forall v, count v (addEdge a b w g).2 = count v g)
  /\ (forall v, v <> a -> adj (addEdge a b w g).2 v = adj g v)
  /\ findWeight b (adj (addEdge a b w g).2 a) = Some w
  /\ (forall t, t <> b ->
        findWeight t (adj (addEdge a b w g).2 a) = findWeight t (adj g a))
  /\ (b ∈ toVert <$> adj g a ->
        toVert <$> adj (addEdge a b w g).2 a = toVert <$> adj g a
        /\ edgeCount (addEdge a b w g).2 = edgeCount g)
  /\ (b ∉ toVert <$> adj g a ->
        adj (addEdge a b w g).2 a = adj g a ++ [{| toVert := b; toWeight := w |}]
        /\ edgeCount (addEdge a b w g).2 = wrap_int (edgeCount g + 1)).
Proof.
  intros Ha Hb. unfold addEdge. rewrite Ha, Hb. csimpl. fold (adj g a).
  assert (Hcount : forall es v,
    count v {| vertCount := vertCount g; edgeCount := edgeCount g;
               Vertices := Vertices g; edgeMap := <[a := es]> (edgeMap g) |}
    = count v g).
  { intros es v. unfold count. cbn. apply bool_decide_ext.
    rewrite lookup_insert. destruct (decide (a = v)) as [<-|]; [|done].
    apply count_true in Ha. split; eauto. }
  assert (Hadj : forall vc ec vs es, adj (mkGraph vc ec vs (<[a := es]> (edgeMap g))) a = es).
  { intros. unfold adj. cbn. by rewrite lookup_insert_eq. }
  assert (Hadj' : forall vc ec vs es v, v <> a ->
            adj (mkGraph vc ec vs (<[a := es]> (edgeMap g))) v = adj g v).
  { intros. unfold adj. cbn. by rewrite lookup_insert_ne. }
  destruct (overwrite b w (adj g a)) as [es'|] eqn:E; cbn [fst snd];
    rewrite !Hadj; cbn [Vertices vertCount edgeCount].
  - destruct (overwrite_Some _ _ _ _ E) as (H1 & H2 & H3 & _).
    split_and!; try done.
    + intros v Hv. by apply Hadj'.
    + intros t Ht. by eapply overwrite_other.
  - apply overwrite_None in E.
    split_and!; try done.
    + intros v. unfold count. cbn. apply bool_decide_ext.
      rewrite lookup_insert. destruct (decide (a = v)) as [<-|]; [|done].
      apply count_true in Ha. split; eauto.
    + intros v Hv. by apply Hadj'.
    + by apply findWeight_app_new.
    + intros t Ht. clear E. induction (adj g a) as [|e es IH]; csimpl.
      * by rewrite bool_decide_eq_false_2 by congruence.
      * case_bool_decide; [done | apply IH].
Qed.

(** C6: in a graph that holds the vertices [a] and [b], [addEdge a b w]
    succeeds and [getWeight a b] then yields [w]; adding [(a, b, w2)] next
    succeeds too, makes [getWeight a b] yield [w2], and leaves the edge count
    as the first call left it. *)
Theorem addEdge_then_getWeight_overwrite (g : graph) (a b w w2 : Z) :
  count a g = true -> count b g = true ->
  (addEdge a b w g).1 = true
  /\ getWeight a b (addEdge a b w g).2 = Some w
  /\ (addEdge a b w2 (addEdge a b w g).2).1 = true
  /\ getWeight a b (addEdge a b w2 (addEdge a b w g).2).2 = Some w2
  /\ NumEdges (addEdge a b w2 (addEdge a b w g).2).2 = NumEdges (addEdge a b w g).2.
Proof.
  intros Ha Hb.
  destruct (addEdge_present a b w g Ha Hb) as (R1 & _ & _ & C1 & _ & W1 & _).
  set (g1 := (addEdge a b w g).2) in *.
  assert (Ha1 : count a g1 = true) by (by rewrite C1).
  assert (Hb1 : count b g1 = true) by (by rewrite C1).
  destruct (addEdge_present a b w2 g1 Ha1 Hb1) as (R2 & _ & _ & C2 & _ & W2 & _ & O2 & _).
  set (g2 := (addEdge a b w2 g1).2) in *.
  split_and!; [done | | done | | ].
  - by rewrite getWeight_adj.
  - rewrite getWeight_adj; [done | by rewrite C2 | by rewrite C2].
  - apply O2. apply findWeight_Some. eauto.
Qed.

(** The theorem applied in a two-vertex graph. *)
Lemma addEdge_then_getWeight_overwrite_witness :
  let g := build [AddVertex 1; AddVertex 2] in
  (addEdge 1 2 5 g).1 = true
  /\ getWeight 1 2 (addEdge 1 2 5 g).2 = Some 5
  /\ (addEdge 1 2 7 (addEdge 1 2 5 g).2).1 = true
  /\ getWeight 1 2 (addEdge 1 2 7 (addEdge 1 2 5 g).2).2 = Some 7
  /\ NumEdges (addEdge 1 2 7 (addEdge 1 2 5 g).2).2 = NumEdges (addEdge 1 2 5 g).2.
Proof.
  apply (addEdge_then_getWeight_overwrite (build [AddVertex 1; AddVertex 2]) 1 2 5 7);
    vm_compute; reflexivity.
Defined.

(** C7: [addEdge] with an endpoint that is no vertex of the graph returns
    [false] and hands back the graph it was given: the same vertices, the
    same counters, the same edges and weights. *)
Theorem addEdge_missing_endpoint (g : graph) (from to weight : Z) :
  count from g = false \/ count to g = false ->
  addEdge from to weight g = (false, g).
Proof.
  intros H. unfold addEdge.
  destruct H as [-> | ->]; [done|]. by rewrite orb_true_r.
Qed.

Lemma addEdge_missing_endpoint_witness :
  addEdge 1 9 5 (build [AddVertex 1; AddVertex 2])
  = (false, build [AddVertex 1; AddVertex 2]).
Proof.
  apply (addEdge_missing_endpoint (build [AddVertex 1; AddVertex 2]) 1 9 5).
  right. vm_compute. reflexivity.
Defined.

(** *** Well-formed graphs *)

(** What every graph reachable through [addVertex] and [addEdge] satisfies:
    the vertex vector has no repetition and lists the keys of [edgeMap], an
    adjacency vector names a neighbour once, and every neighbour is a
    vertex. *)
Record wf (g : graph) : Prop := {
  wf_nodup : NoDup (Vertices g);
  wf_dom : forall v, v ∈ Vertices g <-> count v g = true;
  wf_adj_nodup : forall v, NoDup (toVert <$> adj g v);
  wf_adj_closed : forall v t, t ∈ toVert <$> adj g v -> t ∈ Vertices g
}.

Lemma adj_absent g v : count v g = false -> adj g v = [].
Proof. intros H%count_false. unfold adj. by rewrite H. Qed.

Lemma wf_empty : wf empty.
Proof.
  split.
  - constructor.
  - intros v. unfold count. cbn. rewrite lookup_empty.
    split; [by intros ?%elem_of_nil | intros H%bool_decide_eq_true; by destruct H].
  - intros v. unfold adj. cbn. rewrite lookup_empty. constructor.
  - intros v t. unfold adj. cbn. rewrite lookup_empty. by intros ?%elem_of_nil.
Qed.

Lemma addVertex_old v g : count v g = true -> addVertex v g = (false, g).
Proof. intros H. unfold addVertex. by rewrite H. Qed.

Lemma addVertex_new v g :
  count v g = false ->
  (addVertex v g).1 = true
  /\ Vertices (addVertex v g).2 = Vertices g ++ [v]
  /\ vertCount (addVertex v g).2 = wrap_int (vertCount g + 1)
  /\ edgeCount (addVertex v g).2 = edgeCount g
  /\ (forall u, count u (addVertex v g).2 = true <-> u = v \/ count u g = true)
  /\ (forall u, adj (addVertex v g).2 u = adj g u).
Proof.
  intros H. unfold addVertex. rewrite H. cbn.
  split_and!; try done.
  - intros u. unfold count. cbn. rewrite !bool_decide_eq_true, lookup_insert.
    destruct (decide (v = u)) as [->|]; [split; eauto|].
    split; [by right | intros [?|?]; congruence].
  - intros u. unfold adj. cbn. rewrite lookup_insert.
    destruct (decide (v = u)) as [->|]; [|done].
    apply count_false in H. by rewrite H.
Qed.

Lemma wf_addVertex v g : wf g -> wf (addVertex v g).2.
Proof.
  intros Hwf. destruct (count v g) eqn:E.
  - by rewrite addVertex_old.
  - destruct (addVertex_new v g E) as (_ & HV & _ & _ & HC & HA).
    split.
    + rewrite HV. apply NoDup_app. split_and!; [apply Hwf | | apply NoDup_singleton].
      intros x Hx ->%list_elem_of_singleton. apply (wf_dom g Hwf) in Hx. congruence.
    + intros u. rewrite HV, HC, elem_of_app, list_elem_of_singleton, (wf_dom g Hwf).
      tauto.
    + intros u. rewrite HA. apply Hwf.
    + intros u t. rewrite HA, HV, elem_of_app. intros Ht. left.
      by eapply wf_adj_closed.
Qed.

Lemma wf_addEdge a b w g : wf g -> wf (addEdge a b w g).2.
Proof.
  intros Hwf.
  destruct (count a g) eqn:Ea; [destruct (count b g) eqn:Eb|].
  2,3: rewrite addEdge_missing_endpoint by auto; done.
  destruct (addEdge_present a b w g Ea Eb) as (_ & HV & _ & HC & HA & _ & _ & Hold & Hnew).
  assert (Hset : forall t, t ∈ toVert <$> adj (addEdge a b w g).2 a ->
                           t = b \/ t ∈ toVert <$> adj g a).
  { intros t. destruct (decide (b ∈ toVert <$> adj g a)) as [Hin|Hin].
    - destruct (Hold Hin) as [-> _]. auto.
    - destruct (Hnew Hin) as [-> _]. rewrite fmap_app, elem_of_app. csimpl.
      rewrite list_elem_of_singleton. tauto. }
  split.
  - rewrite HV. apply Hwf.
  - intros v. rewrite HV, HC. apply Hwf.
  - intros v. destruct (decide (v = a)) as [->|Hne]; [|rewrite HA by done; apply Hwf].
    destruct (decide (b ∈ toVert <$> adj g a)) as [Hin|Hin].
    + destruct (Hold Hin) as [-> _]. apply Hwf.
    + destruct (Hnew Hin) as [-> _]. rewrite fmap_app. apply NoDup_app.
      split_and!; [apply Hwf | | apply NoDup_singleton].
      intros x Hx. csimpl. rewrite list_elem_of_singleton. congruence.
  - intros v t. rewrite HV. destruct (decide (v = a)) as [->|Hne].
    + intros [->|Ht]%Hset; [by apply (wf_dom g Hwf) | by eapply wf_adj_closed].
    + rewrite HA by done. by apply wf_adj_closed.
Qed.

Lemma build_snoc ops o : build (ops ++ [o]) = apply_op (build ops) o.
Proof. unfold build. by rewrite foldl_snoc. Qed.

Lemma wf_build ops : wf (build ops).
Proof.
  induction ops as [|o ops IH] using rev_ind; [apply wf_empty|].
  rewrite build_snoc. destruct o; cbn; [by apply wf_addVertex | by apply wf_addEdge].
Qed.

(** *** Counters *)

Lemma elem_of_present_pairs g f t :
  (f, t) ∈ present_pairs g <-> f ∈ Vertices g /\ t ∈ toVert <$> adj g f.
Proof.
  unfold present_pairs. rewrite elem_of_union_list. split.
  - intros (X & HX & Hin). apply list_elem_of_fmap in HX as (v & -> & Hv).
    apply elem_of_list_to_set, list_elem_of_fmap in Hin as (e & Heq & He).
    injection Heq as -> ->. split; [done|]. apply list_elem_of_fmap. eauto.
  - intros [Hf Ht]. apply list_elem_of_fmap in Ht as (e & -> & He).
    eexists. split; [apply list_elem_of_fmap; eauto|].
    apply elem_of_list_to_set, list_elem_of_fmap. eauto.
Qed.

Lemma present_pairs_getWeight g f t :
  wf g -> (f, t) ∈ present_pairs g <-> is_Some (getWeight f t g).
Proof.
  intros Hwf. rewrite elem_of_present_pairs. unfold getWeight.
  destruct (count f g) eqn:Ef; csimpl.
  - destruct (count t g) eqn:Et; csimpl.
    + fold (adj g f). rewrite findWeight_Some, (wf_dom g Hwf). tauto.
    + split; [|by intros [? ?]]. intros [_ Ht].
      apply (wf_adj_closed g Hwf), (wf_dom g Hwf) in Ht. congruence.
  - split; [|by intros [? ?]]. intros [Hf _]. apply (wf_dom g Hwf) in Hf. congruence.
Qed.

Lemma present_pairs_addVertex v g :
  wf g -> present_pairs (addVertex v g).2 = present_pairs g.
Proof.
  intros Hwf. destruct (count v g) eqn:E; [by rewrite addVertex_old|].
  destruct (addVertex_new v g E) as (_ & HV & _ & _ & _ & HA).
  apply set_eq. intros [f t]. rewrite !elem_of_present_pairs, HV, HA, elem_of_app.
  rewrite list_elem_of_singleton. split; [|tauto].
  intros [[Hf| ->] Ht]; [done|]. rewrite adj_absent in Ht by done.
  by apply elem_of_nil in Ht.
Qed.

Lemma present_pairs_addEdge a b w g :
  wf g -> count a g = true -> count b g = true ->
  present_pairs (addEdge a b w g).2 = {[ (a, b) ]} ∪ present_pairs g.
Proof.
  intros Hwf Ea Eb.
  destruct (addEdge_present a b w g Ea Eb) as (_ & HV & _ & _ & HA & _ & _ & Hold & Hnew).
  apply set_eq. intros [f t].
  rewrite elem_of_union, elem_of_singleton, !elem_of_present_pairs, HV.
  destruct (decide (f = a)) as [->|Hne].
  - destruct (decide (b ∈ toVert <$> adj g a)) as [Hin|Hin].
    + destruct (Hold Hin) as [-> _]. split; [tauto|].
      intros [[= ->]|?]; [|done]. split; [by apply (wf_dom g Hwf) | done].
    + destruct (Hnew Hin) as [-> _]. rewrite fmap_app, elem_of_app. csimpl.
      rewrite list_elem_of_singleton. split.
      * intros [? [?| ->]]; auto.
      * intros [[= ->]|[? ?]]; [|tauto]. split; [by apply (wf_dom g Hwf) | by right].
  - rewrite HA by done. split; [tauto|]. intros [[= ? ?]|?]; [congruence | done].
Qed.

(** The counters after a sequence of operations, and how large they can be. *)
Lemma build_counters ops :
  Z.of_nat (length ops) <= INT_MAX ->
  let g := build ops in
  (length (Vertices g) <= length ops)%nat
  /\ (size (present_pairs g) <= length ops)%nat
  /\ vertCount g = Z.of_nat (length (Vertices g))
  /\ edgeCount g = Z.of_nat (size (present_pairs g)).
Proof.
  induction ops as [|o ops IH] using rev_ind; intros Hlen g.
  - subst g. cbn. rewrite size_empty. done.
  - rewrite length_app in Hlen |- *. cbn [length] in *.
    destruct IH as (IH1 & IH2 & IH3 & IH4); [lia|].
    pose proof (wf_build ops) as Hwf.
    subst g. rewrite build_snoc. set (g := build ops) in *.
    destruct o as [v|a b w]; cbn [apply_op].
    + rewrite present_pairs_addVertex by done.
      destruct (count v g) eqn:E.
      * rewrite addVertex_old by done. cbn [snd]. split_and!; [lia | lia | done | done].
      * destruct (addVertex_new v g E) as (_ & -> & -> & -> & _).
        rewrite length_app. cbn [length].
        split_and!; [lia | lia | | done].
        rewrite wrap_int_small; unfold INT_MAX in *; lia.
    + destruct (count a g) eqn:Ea; [destruct (count b g) eqn:Eb|].
      2,3: rewrite addEdge_missing_endpoint by auto; cbn [snd];
           split_and!; [lia | lia | done | done].
      rewrite present_pairs_addEdge by done.
      destruct (addEdge_present a b w g Ea Eb) as (_ & -> & -> & _ & _ & _ & _ & Hold & Hnew).
      destruct (decide (b ∈ toVert <$> adj g a)) as [Hin|Hin].
      * destruct (Hold Hin) as [_ ->].
        assert (Hsame : {[ (a, b) ]} ∪ present_pairs g = present_pairs g).
        { apply set_eq. intros x. rewrite elem_of_union, elem_of_singleton.
          split; [|tauto]. intros [->|?]; [|done].
          apply elem_of_present_pairs. split; [by apply (wf_dom g Hwf) | done]. }
        rewrite Hsame. split_and!; [lia | lia | done | done].
      * destruct (Hnew Hin) as [_ ->].
        rewrite size_union, size_singleton.
        2:{ intros x ->%elem_of_singleton [_ ?]%elem_of_present_pairs. done. }
        split_and!; [lia | lia | done | ].
        rewrite wrap_int_small; unfold INT_MAX in *; lia.
Qed.

Lemma Vertices_added ops v : v ∈ Vertices (build ops) <-> v ∈ added_vertices ops.
Proof.
  unfold added_vertices. rewrite elem_of_list_to_set, list_elem_of_omap.
  induction ops as [|o ops IH] using rev_ind.
  - cbn. split; [by intros ?%elem_of_nil | by intros (? & ?%elem_of_nil & _)].
  - rewrite build_snoc. pose proof (wf_build ops) as Hwf.
    assert (Hsnoc : (exists x, x ∈ ops ++ [o] /\
                       match x with AddVertex v0 => Some v0 | _ => None end = Some v)
                    <-> (exists x, x ∈ ops /\
                       match x with AddVertex v0 => Some v0 | _ => None end = Some v)
                        \/ o = AddVertex v).
    { split.
      - intros (x & [Hx| ->%list_elem_of_singleton]%elem_of_app & Hv); [eauto|].
        right. destruct o; congruence.
      - intros [(x & Hx & Hv)| ->].
        + exists x. split; [apply elem_of_app; by left | done].
        + exists (AddVertex v).
          split; [apply elem_of_app; right; by apply list_elem_of_singleton | done]. }
    rewrite Hsnoc, <- IH. clear Hsnoc IH.
    destruct o as [u|a b w]; cbn [apply_op].
    + destruct (count u (build ops)) eqn:E.
      * rewrite addVertex_old by done. cbn [snd]. split; [auto|].
        intros [?|[= ->]]; [done|]. by apply (wf_dom _ Hwf).
      * destruct (addVertex_new u _ E) as (_ & -> & _).
        rewrite elem_of_app, list_elem_of_singleton. split.
        -- intros [?| ->]; auto.
        -- intros [?|[= ->]]; auto.
    + assert (HV : Vertices (addEdge a b w (build ops)).2 = Vertices (build ops)).
      { destruct (count a (build ops)) eqn:Ea; [destruct (count b (build ops)) eqn:Eb|].
        2,3: by rewrite addEdge_missing_endpoint by auto.
        by destruct (addEdge_present a b w _ Ea Eb) as (_ & -> & _). }
      rewrite HV. split; [auto|]. by intros [?|?].
Qed.

(** C8: after any sequence of [addVertex] and [addEdge] calls on an empty
    graph (short enough for the [int] counters, below 2^31 calls), a vertex
    occurs once in the vertex vector, an adjacency vector holds one edge per
    neighbour, [NumVertices] is the number of distinct vertices added, and
    [NumEdges] is the number of distinct [(from, to)] pairs present, the
    pairs for which [getWeight] finds a weight. *)
Theorem build_invariants (ops : list op) :
  Z.of_nat (length ops) <= INT_MAX ->
  NoDup (Vertices (build ops))
  /\ (forall v, v ∈ Vertices (build ops) <-> v ∈ added_vertices ops)
  /\ (forall v, NoDup (toVert <$> adj (build ops) v))
  /\ NumVertices (build ops) = Z.of_nat (size (added_vertices ops))
  /\ NumEdges (build ops) = Z.of_nat (size (present_pairs (build ops)))
  /\ (forall from to,
        (from, to) ∈ present_pairs (build ops)
        <-> is_Some (getWeight from to (build ops))).
Proof.
  intros Hlen. pose proof (wf_build ops) as Hwf.
  destruct (build_counters ops Hlen) as (_ & _ & HV & HE).
  split_and!.
  - apply Hwf.
  - apply Vertices_added.
  - apply Hwf.
  - unfold NumVertices. rewrite HV. f_equal.
    assert (Heq : added_vertices ops = list_to_set (Vertices (build ops))).
    { apply set_eq. intros v. by rewrite elem_of_list_to_set, Vertices_added. }
    rewrite Heq, size_list_to_set; [done | apply Hwf].
  - done.
  - intros f t. by apply present_pairs_getWeight.
Qed.

Lemma build_invariants_witness :
  let ops := [AddVertex 1; AddVertex 2; AddVertex 1; AddEdge 1 2 5; AddEdge 1 2 7;
              AddEdge 2 1 3; AddEdge 1 9 4] in
  NoDup (Vertices (build ops))
  /\ (forall v, v ∈ Vertices (build ops) <-> v ∈ added_vertices ops)
  /\ (forall v, NoDup (toVert <$> adj (build ops) v))
  /\ NumVertices (build ops) = Z.of_nat (size (added_vertices ops))
  /\ NumEdges (build ops) = Z.of_nat (size (present_pairs (build ops)))
  /\ (forall from to,
        (from, to) ∈ present_pairs (build ops)
        <-> is_Some (getWeight from to (build ops))).
Proof.
  apply (build_invariants [AddVertex 1; AddVertex 2; AddVertex 1; AddEdge 1 2 5;
                           AddEdge 1 2 7; AddEdge 2 1 3; AddEdge 1 9 4]).
  vm_compute. discriminate.
Defined.

End GraphFacts.

(** ** The shortest-path engine *)

Section OutcomeFacts.

Lemma map_at_Some {V} (m : gmap Z V) k v : m !! k = Some v -> map_at m k = Returns v.
Proof. intros Hm. unfold map_at. by rewrite Hm. Qed.

Lemma map_at_None {V} (m : gmap Z V) k : m !! k = None -> map_at m k = OutOfRange.
Proof. intros Hm. unfold map_at. by rewrite Hm. Qed.

Lemma foldM_app {A B} (f : A -> B -> outcome A) l1 l2 a :
  foldM f (l1 ++ l2) a = foldM f l1 a ≫= foldM f l2.
Proof.
  revert a. induction l1 as [|x l1 IH]; intros a; [done|].
  cbn. destruct (f a x); cbn; auto.
Qed.

(** A loop whose body keeps an invariant, indexed by the part of the
    container already processed, runs to its end. *)
Lemma foldM_inv {A B} (f : A -> B -> outcome A) (I : list B -> A -> Prop) l a :
  I [] a ->
  (forall done x a0, I done a0 -> x ∈ l ->
     exists a1, f a0 x = Returns a1 /\ I (done ++ [x]) a1) ->
  exists a', foldM f l a = Returns a' /\ I l a'.
Proof.
  intros H0 Hstep.
  assert (Hgen : forall todo done a0, done ++ todo = l -> I done a0 ->
            exists a', foldM f todo a0 = Returns a' /\ I l a').
  { induction todo as [|x todo IH]; intros done a0 Hl Hd.
    - rewrite app_nil_r in Hl. subst. eauto.
    - destruct (Hstep done x a0 Hd) as (a1 & Hf & Ha1).
      { rewrite <- Hl. apply elem_of_app. right. apply list_elem_of_here. }
      cbn. rewrite Hf. cbn. apply (IH (done ++ [x])); [|done].
      by rewrite <- app_assoc. }
  by apply (Hgen l []).
Qed.

End OutcomeFacts.

Section NeighborFacts.
Import Graph.

Lemma elem_of_set_insert x y s : x ∈ set_insert y s <-> x = y \/ x ∈ s.
Proof.
  induction s as [|z s IH]; cbn.
  - rewrite list_elem_of_singleton, elem_of_nil. tauto.
  - repeat case_bool_decide; rewrite ?elem_of_cons, ?IH; subst; tauto.
Qed.

Lemma elem_of_neighbors G c b :
  b ∈ neighbors c G <-> b ∈ toVert <$> adj G c.
Proof.
  unfold neighbors. destruct (count c G) eqn:E; cbn.
  - fold (adj G c).
    assert (Hgen : forall es acc,
      b ∈ foldl (fun S e => set_insert (toVert e) S) acc es
      <-> b ∈ acc \/ b ∈ toVert <$> es).
    { induction es as [|e es IH]; intros acc; csimpl.
      - rewrite elem_of_nil. tauto.
      - rewrite IH, elem_of_set_insert, elem_of_cons. tauto. }
    rewrite Hgen, elem_of_nil. tauto.
  - by rewrite adj_absent.
Qed.

Lemma getWeight_Some_adj G c b w :
  getWeight c b G = Some w -> b ∈ toVert <$> adj G c.
Proof.
  unfold getWeight. destruct (negb (count c G) || negb (count b G)); [done|].
  intros Hw. apply findWeight_Some. fold (adj G c) in Hw. eauto.
Qed.

Lemma getWeight_neighbors G c b :
  wf G -> b ∈ neighbors c G <-> is_Some (getWeight c b G).
Proof.
  intros Hwf. rewrite elem_of_neighbors. split.
  - intros Hb. assert (Hcb : count b G = true).
    { by apply (wf_dom G Hwf), (wf_adj_closed G Hwf c). }
    assert (Hcc : count c G = true).
    { destruct (count c G) eqn:E; [done|]. rewrite adj_absent in Hb by done.
      by apply elem_of_nil in Hb. }
    rewrite getWeight_adj by done. by apply findWeight_Some.
  - intros [w Hw]. by eapply getWeight_Some_adj.
Qed.

Lemma getWeight_vertices G c b w :
  wf G -> getWeight c b G = Some w -> c ∈ Vertices G /\ b ∈ Vertices G.
Proof.
  intros Hwf Hw. unfold getWeight in Hw.
  destruct (count c G) eqn:Ec; [|done]. destruct (count b G) eqn:Eb; [|done].
  split; by apply (wf_dom G Hwf).
Qed.

End NeighborFacts.

Section QueueFacts.
Import Engine.
Context {Q : Type} `{PriorityQueue Q}.

Lemma elem_of_push x y q : y ∈ pq_items (pq_push x q) <-> y = x \/ y ∈ pq_items q.
Proof. by rewrite (pq_push_items x q), elem_of_cons. Qed.

Lemma length_push x q : length (pq_items (pq_push x q)) = S (length (pq_items q)).
Proof. by rewrite (pq_push_items x q). Qed.

Lemma elem_of_pop q x q' y :
  pq_pop q = Some (x, q') -> y ∈ pq_items q <-> y = x \/ y ∈ pq_items q'.
Proof. intros Hpop. by rewrite (pq_pop_items q x q' Hpop), elem_of_cons. Qed.

Lemma length_pop q x q' :
  pq_pop q = Some (x, q') -> length (pq_items q) = S (length (pq_items q')).
Proof. intros Hpop. by rewrite (pq_pop_items q x q' Hpop). Qed.

(** The entry served has the least distance of the queue. *)
Lemma pop_least q x q' y :
  pq_pop q = Some (x, q') -> y ∈ pq_items q -> x.2 <= y.2.
Proof.
  intros Hpop Hy. pose proof (pq_pop_top q x q' y Hpop Hy) as Hp.
  unfold prioritize in Hp. apply bool_decide_eq_false in Hp. lia.
Qed.

Lemma pop_nonempty q : pq_items q <> [] -> exists x q', pq_pop q = Some (x, q').
Proof.
  intros Hne. destruct (pq_pop q) as [[x q']|] eqn:E; [eauto|].
  by apply pq_pop_empty in E.
Qed.

End QueueFacts.

Section EngineSafety.
Import Graph Engine.
Context {Q : Type} `{PriorityQueue Q}.
Variable G : graph.
Hypothesis Hwf : wf G.

(** *** The set-up loop *)

Lemma init_vertex_eq (st : dstate Q) v :
  init_vertex st v =
    Returns {| unvisitedQ := pq_push (v, default INF (distances st !! v)) (unvisitedQ st);
               distances := emplace v INF (distances st);
               predecessors := emplace v (-1) (predecessors st);
               visitedVertices := visitedVertices st;
               currentV := currentV st;
               edgeWeight := edgeWeight st |}.
Proof.
  unfold init_vertex, emplace, map_at.
  destruct (distances st !! v) as [d|] eqn:E; cbn.
  - by rewrite E.
  - by rewrite lookup_insert_eq.
Qed.

(** The state in which the set-up loop leaves the call. *)
Record initialised (vs : list Z) (st : dstate Q) : Prop := {
  init_dist : forall v, distances st !! v = if decide (v ∈ vs) then Some INF else None;
  init_pred : forall v, predecessors st !! v = if decide (v ∈ vs) then Some (-1) else None;
  init_items : pq_items (unvisitedQ st) ≡ₚ (fun v => (v, INF)) <$> vs;
  init_visited : visitedVertices st = ∅;
  init_current : currentV st = None;
  init_weight : edgeWeight st = None
}.

Lemma init_loop vs :
  exists st, foldM init_vertex vs (initial (Q:=Q)) = Returns st /\ initialised vs st.
Proof.
  induction vs as [|v vs IH] using rev_ind.
  - exists initial. split; [done|]. split; try done.
    cbn. by rewrite pq_new_items.
  - destruct IH as (st & Hst & Hi). rewrite foldM_app, Hst. cbn.
    rewrite init_vertex_eq. eexists. split; [done|].
    destruct Hi as [Hd Hp Hq Hv Hc He]. split; cbn; try done.
    + intros u. unfold emplace. rewrite (Hd v).
      destruct (decide (v ∈ vs)) as [Hin|Hin].
      * rewrite Hd. apply decide_ext. rewrite elem_of_app, list_elem_of_singleton.
        split; [tauto|]. intros [?| ->]; done.
      * rewrite lookup_insert. destruct (decide (v = u)) as [<-|Hne].
        -- rewrite decide_True; [done|]. apply elem_of_app. right.
           by apply list_elem_of_singleton.
        -- rewrite Hd. apply decide_ext. rewrite elem_of_app, list_elem_of_singleton.
           split; [tauto|]. intros [?| ->]; done.
    + intros u. unfold emplace. rewrite (Hp v).
      destruct (decide (v ∈ vs)) as [Hin|Hin].
      * rewrite Hp. apply decide_ext. rewrite elem_of_app, list_elem_of_singleton.
        split; [tauto|]. intros [?| ->]; done.
      * rewrite lookup_insert. destruct (decide (v = u)) as [<-|Hne].
        -- rewrite decide_True; [done|]. apply elem_of_app. right.
           by apply list_elem_of_singleton.
        -- rewrite Hp. apply decide_ext. rewrite elem_of_app, list_elem_of_singleton.
           split; [tauto|]. intros [?| ->]; done.
    + rewrite pq_push_items, Hq, fmap_app. csimpl.
      rewrite (Hd v). destruct (decide (v ∈ vs)); cbn;
        by rewrite <- Permutation_cons_append.
Qed.

(** *** The body of the relaxation loop and of the main loop, case by case *)

Lemma relax_eq c b (st : dstate Q) dc db w :
  distances st !! c = Some dc -> distances st !! b = Some db ->
  getWeight c b G = Some w ->
  relax G c st b =
    Returns (if bool_decide (dc + w < db)
             then {| unvisitedQ := pq_push (b, dc + w) (unvisitedQ st);
                     distances := <[b := dc + w]> (distances st);
                     predecessors := <[b := c]> (predecessors st);
                     visitedVertices := visitedVertices st;
                     currentV := currentV st;
                     edgeWeight := Some w |}
             else {| unvisitedQ := unvisitedQ st;
                     distances := distances st;
                     predecessors := predecessors st;
                     visitedVertices := visitedVertices st;
                     currentV := currentV st;
                     edgeWeight := Some w |}).
Proof.
  intros Hc Hb Hw. unfold relax, map_at. rewrite Hw, Hc, Hb. cbn.
  by case_bool_decide.
Qed.

(** The state once the top entry is off the queue. *)
Definition popped (top : Z * Z) (q' : Q) (st : dstate Q) : dstate Q :=
  {| unvisitedQ := q';
     distances := distances st;
     predecessors := predecessors st;
     visitedVertices := visitedVertices st;
     currentV := Some top.1;
     edgeWeight := edgeWeight st |}.

(** The state once the vertex of the top entry is marked as visited. *)
Definition marked (top : Z * Z) (q' : Q) (st : dstate Q) : dstate Q :=
  {| unvisitedQ := q';
     distances := distances st;
     predecessors := predecessors st;
     visitedVertices := {[ top.1 ]} ∪ visitedVertices st;
     currentV := Some top.1;
     edgeWeight := edgeWeight st |}.

Lemma visit_inf endV top q' (st : dstate Q) :
  distances st !! top.1 = Some INF ->
  visit G endV top q' st = Returns (Break, popped top q' st).
Proof.
  intros Hd. unfold visit, map_at. cbn. rewrite Hd. cbn.
  by rewrite bool_decide_eq_true_2.
Qed.

Lemma visit_seen endV top q' (st : dstate Q) d :
  distances st !! top.1 = Some d -> d <> INF -> top.1 ∈ visitedVertices st ->
  visit G endV top q' st = Returns (Continue, popped top q' st).
Proof.
  intros Hd Hne Hin. unfold visit, map_at. cbn. rewrite Hd. cbn.
  rewrite bool_decide_eq_false_2 by done. by rewrite bool_decide_eq_true_2.
Qed.

Lemma visit_new endV top q' (st st3 : dstate Q) d :
  distances st !! top.1 = Some d -> d <> INF -> top.1 ∉ visitedVertices st ->
  foldM (relax G top.1) (neighbors top.1 G) (marked top q' st) = Returns st3 ->
  visit G endV top q' st
  = Returns (if bool_decide (top.1 = endV) then Break else Continue, st3).
Proof.
  intros Hd Hne Hin Hfold. unfold visit, map_at. cbn. rewrite Hd. cbn.
  rewrite !bool_decide_eq_false_2 by done.
  unfold marked in Hfold. rewrite Hfold. cbn. by case_bool_decide.
Qed.

(** *** A rule for the main loop *)

(** An invariant [I] of the iterations that continue, a property [Post] of
    the states in which the loop is left, and a measure that every
    continuing iteration decreases: with a budget above the measure the
    loop returns a state that satisfies [Post]. *)
Lemma scan_rule endV (I Post : dstate Q -> Prop) (mu : dstate Q -> nat) :
  (forall st, I st -> pq_pop (unvisitedQ st) = None -> Post st) ->
  (forall st top q', I st -> pq_pop (unvisitedQ st) = Some (top, q') ->
     exists fl st', visit G endV top q' st = Returns (fl, st')
       /\ match fl with
          | Break => Post st'
          | Continue => I st' /\ (mu st' < mu st)%nat
          end) ->
  forall fuel st, I st -> (mu st < fuel)%nat ->
    exists st', scan fuel G endV st = Returns st' /\ Post st'.
Proof.
  intros Hexit Hstep. induction fuel as [|fuel IH]; intros st HI Hmu; [lia|].
  cbn. destruct (pq_pop (unvisitedQ st)) as [[top q']|] eqn:Epop.
  - destruct (Hstep st top q' HI Epop) as (fl & st' & Hv & Hfl).
    rewrite Hv. cbn. destruct fl.
    + destruct Hfl as [HI' Hmu']. apply IH; [done | lia].
    + eauto.
  - eauto.
Qed.

(** *** Safety: the maps are defined on the vertices and the queue holds
    vertices *)

Record safe (st : dstate Q) : Prop := {
  safe_dist : forall v, is_Some (distances st !! v) <-> v ∈ Vertices G;
  safe_pred : forall v, is_Some (predecessors st !! v) <-> v ∈ Vertices G;
  safe_items : forall x, x ∈ pq_items (unvisitedQ st) -> x.1 ∈ Vertices G
}.

(** The edges that leave the vertices not yet visited. *)
Definition pending (S : gset Z) : nat :=
  sum_list ((fun v => if decide (v ∈ S) then 0%nat else length (neighbors v G))
              <$> Vertices G).

Definition measure (st : dstate Q) : nat :=
  (length (pq_items (unvisitedQ st)) + pending (visitedVertices st))%nat.

Lemma pending_visit (S : gset Z) c :
  c ∈ Vertices G -> c ∉ S ->
  (pending ({[ c ]} ∪ S) + length (neighbors c G))%nat = pending S.
Proof.
  intros Hc HS. unfold pending.
  pose proof (wf_nodup G Hwf) as Hnd. revert Hc Hnd.
  induction (Vertices G) as [|v vs IH]; intros Hc Hnd; [by apply elem_of_nil in Hc|].
  apply NoDup_cons in Hnd as [Hv Hnd]. csimpl.
  apply elem_of_cons in Hc as [<-|Hc].
  - rewrite decide_True by (apply elem_of_union; left; by apply elem_of_singleton).
    rewrite (decide_False (P := c ∈ S)) by done.
    assert (Heq : sum_list ((fun v => if decide (v ∈ {[c]} ∪ S) then 0%nat
                                      else length (neighbors v G)) <$> vs)
                  = sum_list ((fun v => if decide (v ∈ S) then 0%nat
                                        else length (neighbors v G)) <$> vs)).
    { f_equal. apply list_fmap_ext. intros i x Hx. apply decide_ext.
      assert (Hxc : x <> c) by (intros ->; apply Hv; eapply list_elem_of_lookup_2; eauto).
      rewrite elem_of_union, elem_of_singleton. tauto. }
    rewrite Heq. cbn. lia.
  - assert (Hvc : v <> c) by (by intros ->).
    specialize (IH Hc Hnd).
    rewrite (decide_ext (v ∈ {[c]} ∪ S) (v ∈ S))
      by (rewrite elem_of_union, elem_of_singleton; tauto).
    destruct (decide (v ∈ S)); cbn; lia.
Qed.

Lemma pending_empty :
  pending ∅ = sum_list ((fun v => length (neighbors v G)) <$> Vertices G).
Proof.
  unfold pending. f_equal.
Qed.

(** What the relaxation loop preserves, whatever the weights are. *)
Lemma relax_loop_safe c l (st : dstate Q) :
  safe st -> c ∈ Vertices G -> (forall b, b ∈ l -> b ∈ neighbors c G) ->
  exists st', foldM (relax G c) l st = Returns st'
    /\ safe st'
    /\ visitedVertices st' = visitedVertices st
    /\ currentV st' = currentV st
    /\ (length (pq_items (unvisitedQ st')) <= length (pq_items (unvisitedQ st)) + length l)%nat.
Proof.
  intros Hsafe Hc Hl.
  destruct (foldM_inv (relax G c)
    (fun done st' => safe st'
       /\ visitedVertices st' = visitedVertices st
       /\ currentV st' = currentV st
       /\ (length (pq_items (unvisitedQ st'))
           <= length (pq_items (unvisitedQ st)) + length done)%nat) l st)
    as (st' & Hst' & HI); [by cbn; rewrite Nat.add_0_r | | eauto].
  intros done b st0 (Hs0 & Hv0 & Hc0 & Hlen0) Hb.
  apply Hl, getWeight_neighbors in Hb as [w Hw]; [|done].
  destruct (getWeight_vertices G c b w Hwf Hw) as [_ HbV].
  apply (safe_dist st0 Hs0) in Hc as [dc Hdc].
  pose proof HbV as HbV'. apply (safe_dist st0 Hs0) in HbV' as [db Hdb].
  rewrite (relax_eq c b st0 dc db w) by done.
  eexists. split; [done|]. rewrite length_app. cbn [length].
  case_bool_decide; cbn.
  - split_and!; [split; cbn | done | done | rewrite length_push; lia].
    + intros v. rewrite lookup_insert. destruct (decide (b = v)) as [<-|].
      * split; eauto.
      * apply Hs0.
    + intros v. rewrite lookup_insert. destruct (decide (b = v)) as [<-|].
      * split; eauto.
      * apply Hs0.
    + intros x [->|Hx]%elem_of_push; [exact HbV | by apply (safe_items st0 Hs0)].
  - split_and!; [split; cbn; apply Hs0 | done | done | lia].
Qed.

(** With a budget above the measure the main loop returns, and the vertex
    it stopped at is a vertex of the graph. *)
Lemma scan_safe endV fuel (st : dstate Q) :
  safe st -> pq_items (unvisitedQ st) <> [] -> (measure st < fuel)%nat ->
  exists st' c, scan fuel G endV st = Returns st' /\ safe st'
    /\ currentV st' = Some c /\ c ∈ Vertices G.
Proof.
  intros Hsafe Hne Hmu.
  destruct (scan_rule endV
    (fun st => safe st /\
       (pq_items (unvisitedQ st) <> [] \/ exists c, currentV st = Some c /\ c ∈ Vertices G))
    (fun st => safe st /\ exists c, currentV st = Some c /\ c ∈ Vertices G)
    measure) with (fuel := fuel) (st := st) as (st' & Hscan & Hs' & c & Hc & HcV);
    [ | | by auto | done | by eauto 10].
  - intros st0 [Hs0 [Hq|Hcur]] Hpop; [|done]. by apply pq_pop_empty in Hpop.
  - intros st0 top q' [Hs0 _] Hpop.
    assert (HtopV : top.1 ∈ Vertices G).
    { apply (safe_items st0 Hs0). apply (elem_of_pop _ _ _ _ Hpop). by left. }
    assert (Hsp : safe (popped top q' st0)).
    { split; cbn; try apply Hs0. intros x Hx. apply (safe_items st0 Hs0).
      apply (elem_of_pop _ _ _ _ Hpop). by right. }
    assert (Hcur : exists c, Some top.1 = Some c /\ c ∈ Vertices G) by eauto.
    pose proof HtopV as Hd. apply (safe_dist st0 Hs0) in Hd as [d Hd].
    pose proof (length_pop _ _ _ Hpop) as Hlen.
    destruct (decide (d = INF)) as [->|Hfin].
    { rewrite visit_inf by done. eexists _, _. split; [done|]. cbn. auto. }
    destruct (decide (top.1 ∈ visitedVertices st0)) as [Hin|Hnin].
    { rewrite (visit_seen _ _ _ _ d) by done. eexists _, _. split; [done|].
      cbn. split_and!; [done | auto | unfold measure; cbn; lia]. }
    assert (Hsm : safe (marked top q' st0)).
    { split; cbn; try apply Hs0. apply Hsp. }
    destruct (relax_loop_safe top.1 (neighbors top.1 G) _ Hsm HtopV)
      as (st3 & Hfold & Hs3 & Hv3 & Hc3 & Hlen3); [done|].
    rewrite (visit_new _ _ _ _ st3 d) by done.
    eexists _, st3. split; [done|]. cbn in Hv3, Hc3, Hlen3.
    assert (Hcur3 : exists c, currentV st3 = Some c /\ c ∈ Vertices G).
    { rewrite Hc3. eauto. }
    case_bool_decide; [done|].
    split_and!; [done | auto |].
    unfold measure. rewrite Hv3.
    pose proof (pending_visit (visitedVertices st0) top.1 HtopV Hnin). lia.
Qed.

(** *** The call as a whole *)

(** The state in which the main loop is entered. *)
Definition entry (startV : Z) (st0 : dstate Q) : dstate Q :=
  {| unvisitedQ := pq_push (startV, 0) (unvisitedQ st0);
     distances := <[startV := 0]> (distances st0);
     predecessors := predecessors st0;
     visitedVertices := visitedVertices st0;
     currentV := currentV st0;
     edgeWeight := edgeWeight st0 |}.

(** [Dijkstra] up to the main loop, for a start vertex of the graph. *)
Lemma Dijkstra_unfold fuel startV endV path :
  startV ∈ Vertices G ->
  exists st0, initialised (Vertices G) st0 /\
    Dijkstra fuel G startV endV path =
      (st ← scan fuel G endV (entry startV st0);
       cur ← read (currentV st);
       if bool_decide (cur ≠ endV) then mret (-1, path)
       else
         bt ← map_at (predecessors st) endV;
         path2 ← backTrace fuel (predecessors st) bt (path ++ [endV]);
         d ← map_at (distances st) endV;
         mret (d, path2)).
Proof.
  intros Hs. destruct (init_loop (Vertices G)) as (st0 & Hinit & Hi).
  exists st0. split; [done|]. unfold Dijkstra, getVertices. rewrite Hinit. cbn.
  rewrite (map_at_Some (distances st0) startV INF)
    by (by rewrite (init_dist _ _ Hi startV), decide_True by done). cbn.
  rewrite (map_at_Some (<[startV := 0]> (distances st0)) startV 0)
    by apply lookup_insert_eq.
  done.
Qed.

Lemma entry_safe startV st0 :
  startV ∈ Vertices G -> initialised (Vertices G) st0 -> safe (entry startV st0).
Proof.
  intros Hs Hi. split; cbn.
  - intros v. rewrite lookup_insert. destruct (decide (startV = v)) as [<-|].
    + split; eauto.
    + rewrite (init_dist _ _ Hi v). destruct (decide (v ∈ Vertices G)); split; eauto.
      * by intros [? ?].
      * done.
  - intros v. rewrite (init_pred _ _ Hi v).
    destruct (decide (v ∈ Vertices G)); split; eauto; [by intros [? ?] | done].
  - intros x [->|Hx]%elem_of_push; [done|].
    rewrite (init_items _ _ Hi) in Hx.
    by apply list_elem_of_fmap in Hx as (v & -> & Hv).
Qed.

Lemma entry_measure startV st0 :
  initialised (Vertices G) st0 -> (measure (entry startV st0) < work G)%nat.
Proof.
  intros Hi. unfold measure, work. cbn.
  rewrite length_push, (init_items _ _ Hi), length_fmap, (init_visited _ _ Hi).
  rewrite pending_empty. lia.
Qed.

Lemma Dijkstra_absent_target fuel startV endV path :
  startV ∈ Vertices G -> endV ∉ Vertices G -> (work G <= fuel)%nat ->
  Dijkstra fuel G startV endV path = Returns (-1, path).
Proof.
  intros Hs Ht Hfuel.
  destruct (Dijkstra_unfold fuel startV endV path Hs) as (st0 & Hi & ->).
  destruct (scan_safe endV fuel (entry startV st0)) as (st & c & -> & _ & Hc & HcV).
  - by apply entry_safe.
  - cbn. intros Hnil. pose proof (length_push (startV, 0) (unvisitedQ st0)) as Hl.
    by rewrite Hnil in Hl.
  - pose proof (entry_measure startV st0 Hi). lia.
  - cbn. rewrite Hc. cbn. rewrite bool_decide_eq_true_2; [done|].
    by intros ->.
Qed.

End EngineSafety.

(** C10: in a graph built by [addVertex] and [addEdge] calls, [Dijkstra]
    from a vertex of the graph to a target that is no vertex of it returns
    [-1], the value that stands for "no path", and leaves [path] as it was:
    no [at()] throws, nothing unassigned is read, and both loops end within
    the budget [work]. This holds for every priority queue. *)
Theorem Dijkstra_missing_target `{Engine.PriorityQueue Q}
    (ops : list Graph.op) (startV endV : Z) (path : list Z) (fuel : nat) :
  startV ∈ Graph.Vertices (Graph.build ops) ->
  endV ∉ Graph.Vertices (Graph.build ops) ->
  (Engine.work (Graph.build ops) <= fuel)%nat ->
  Engine.Dijkstra fuel (Graph.build ops) startV endV path = Returns (-1, path).
Proof.
  intros Hs Ht Hfuel. apply Dijkstra_absent_target; [apply wf_build | done..].
Qed.

(** The four-vertex chain of the design document, and the vertex 5 that is
    not in it. *)
Lemma Dijkstra_missing_target_witness :
  Engine.Dijkstra (H := list_queue) 12
    (Graph.build [Graph.AddVertex 1; Graph.AddVertex 2; Graph.AddVertex 3;
                  Graph.AddVertex 4;
                  Graph.AddEdge 1 2 1; Graph.AddEdge 2 1 1; Graph.AddEdge 2 3 1;
                  Graph.AddEdge 3 2 1; Graph.AddEdge 3 4 1; Graph.AddEdge 4 3 1])
    1 5 [] = Returns (-1, []).
Proof.
  apply (Dijkstra_missing_target (H := list_queue)).
  - vm_compute. repeat constructor.
  - vm_compute. intros Hin. repeat (inversion Hin as [|? ? ? Hin']; subst; clear Hin; rename Hin' into Hin).
  - vm_compute. lia.
Defined.

(** *** Correctness: the invariant of the main loop *)

Section EngineInvariant.
Import Graph Engine Paths.
Variable G : graph.
Hypothesis Hwf : wf G.
Hypothesis Hnonneg : nonnegative G.
Hypothesis Hminus : -1 ∉ Vertices G.
Variable s : Z.
Hypothesis Hs : s ∈ Vertices G.

Lemma INF_pos : 0 < INF.
Proof. reflexivity. Qed.

(** [chain S D P v p]: [p] is the sequence [v], predecessor of [v], ...,
    [s] that the predecessor map [P] records; every vertex after the first
    is visited, and along the sequence the distance map [D] grows by the
    weight of the edge. *)
Inductive chain (S : gset Z) (D P : gmap Z Z) : Z -> list Z -> Prop :=
| chain_source : chain S D P s [s]
| chain_edge v u w du p :
    P !! v = Some u -> u ∈ S -> D !! u = Some du ->
    getWeight u v G = Some w -> D !! v = Some (du + w) ->
    chain S D P u p -> chain S D P v (v :: p).

Lemma chain_elems S D P v p x :
  chain S D P v p -> x ∈ p -> x = v \/ x ∈ S.
Proof.
  induction 1 as [|v u w du p HP Hu HD Hw HDv Hch IH].
  - intros ->%list_elem_of_singleton. by left.
  - intros [->|Hx]%elem_of_cons; [by left|]. right.
    destruct (IH Hx) as [->|?]; done.
Qed.

Lemma chain_mono S D P S' D' P' v p :
  chain S D P v p ->
  (forall x, x ∈ S -> x ∈ S') ->
  (forall x, x ∈ p -> D' !! x = D !! x /\ P' !! x = P !! x) ->
  chain S' D' P' v p.
Proof.
  induction 1 as [|v u w du p HP Hu HD Hw HDv Hch IH]; intros HS Hsame.
  - constructor.
  - assert (Hin_u : u ∈ v :: p).
    { apply elem_of_cons. right. inversion Hch; apply list_elem_of_here. }
    destruct (Hsame v (list_elem_of_here _ _)) as [HDv' HPv'].
    destruct (Hsame u Hin_u) as [HDu' _].
    econstructor; [by rewrite HPv' | by apply HS | by rewrite HDu' | done
                  | by rewrite HDv' | ].
    apply IH; [done|]. intros x Hx. apply Hsame. by apply elem_of_cons; right.
Qed.

(** A chain is a path of the graph from [s], of the weight the distance map
    gives its first vertex. *)
Lemma chain_path S D P v p :
  D !! s = Some 0 -> chain S D P v p ->
  exists d, D !! v = Some d /\ walk G s v d /\ path_weight G p = Some d
    /\ head p = Some v /\ last p = Some s.
Proof.
  intros Hsrc. induction 1 as [|v u w du p HP Hu HD Hw HDv Hch IH].
  - exists 0. split_and!; [done | constructor | done | done | done].
  - destruct IH as (d & Hd & Hwalk & Hpw & Hhd & Hlast).
    assert (d = du) as -> by congruence.
    exists (du + w). split_and!; [done | by econstructor | | done | ].
    + destruct p as [|u' p']; [done|]. injection Hhd as ->.
      cbn [path_weight]. cbn [path_weight] in Hpw. by rewrite Hw, Hpw.
    + destruct p; [done|]. by rewrite last_cons_cons.
Qed.

(** The walk back follows a chain. *)
Lemma chain_backTrace S D P v p fuel bt path :
  P !! s = Some (-1) -> (forall x, x ∈ S -> x <> -1) ->
  chain S D P v p -> P !! v = Some bt -> (length p <= fuel)%nat ->
  backTrace fuel P bt (path ++ [v]) = Returns (path ++ p).
Proof.
  intros Hsrc HS Hch. revert fuel bt path.
  induction Hch as [|v u w du p HP Hu HD Hw HDv Hch IH]; intros fuel bt path Hbt Hfuel.
  - assert (bt = -1) as -> by congruence.
    destruct fuel as [|fuel]; [cbn in Hfuel; lia|]. done.
  - assert (bt = u) as -> by congruence.
    destruct fuel as [|fuel]; [cbn in Hfuel; lia|]. cbn [backTrace].
    rewrite bool_decide_eq_true_2 by (by apply HS).
    assert (Hnext : exists n, P !! u = Some n).
    { inversion Hch; subst; eauto. }
    destruct Hnext as [n Hn]. rewrite (map_at_Some P u n Hn). cbn.
    rewrite (IH fuel n (path ++ [v]) Hn) by (cbn in Hfuel; lia).
    by rewrite <- app_assoc.
Qed.

(** The invariant, on the entries of the queue, the two maps and the
    visited set. [E u v] tells for which edges [(u, v)] out of a visited
    [u] the relaxation has been done. *)
Record inv (E : Z -> Z -> Prop) (items : list (Z * Z)) (D P : gmap Z Z) (S : gset Z)
  : Prop := {
  i_dist : forall v, is_Some (D !! v) <-> v ∈ Vertices G;
  i_pred : forall v, is_Some (P !! v) <-> v ∈ Vertices G;
  i_src_d : D !! s = Some 0;
  i_src_p : P !! s = Some (-1);
  i_range : forall v d, D !! v = Some d -> 0 <= d <= INF;
  i_items : forall v k, (v, k) ∈ items -> exists d, D !! v = Some d /\ d <= k;
  i_live : forall v d, D !! v = Some d -> d < INF -> v ∈ S \/ (v, d) ∈ items;
  i_order : forall u v du dv,
    u ∈ S -> v ∉ S -> D !! u = Some du -> D !! v = Some dv -> du <= dv;
  i_fin : forall u du, u ∈ S -> D !! u = Some du -> du < INF;
  i_edges : forall u v w du dv,
    u ∈ S -> E u v -> getWeight u v G = Some w ->
    D !! u = Some du -> D !! v = Some dv -> dv <= du + w;
  i_chain : forall v d, D !! v = Some d -> d < INF ->
    exists p, chain S D P v p
      /\ (length p <= size S + (if decide (v ∈ S) then 0 else 1))%nat;
  i_fresh : forall v, D !! v = Some INF -> P !! v = Some (-1);
  i_sub : forall v, v ∈ S -> v ∈ Vertices G;
  i_pending : forall v, v ∈ Vertices G -> v ∉ S -> (v, INF) ∈ items
}.

Definition all_edges (u v : Z) : Prop := True.

(** The edges out of [c] to the neighbours in [seen], and all the edges out
    of other vertices. *)
Definition edges_but (c : Z) (seen : list Z) (u v : Z) : Prop := u <> c \/ v ∈ seen.

(** The invariant holds when the main loop is entered. *)
Lemma inv_entry (items0 : list (Z * Z)) (D0 P0 : gmap Z Z) :
  (forall v, D0 !! v = if decide (v ∈ Vertices G) then Some INF else None) ->
  (forall v, P0 !! v = if decide (v ∈ Vertices G) then Some (-1) else None) ->
  (forall x, x ∈ items0 <-> exists v, x = (v, INF) /\ v ∈ Vertices G) ->
  inv all_edges ((s, 0) :: items0) (<[s := 0]> D0) P0 ∅.
Proof.
  intros HD HP Hitems. pose proof INF_pos as Hinf.
  assert (HDs : forall v d, <[s := 0]> D0 !! v = Some d ->
            (v = s /\ d = 0) \/ (v <> s /\ d = INF /\ v ∈ Vertices G)).
  { intros v d. rewrite lookup_insert. destruct (decide (s = v)) as [<-|Hne].
    - intros [= <-]. by left.
    - rewrite HD. destruct (decide (v ∈ Vertices G)); [|done].
      intros [= <-]. right. done. }
  split.
  - intros v. rewrite lookup_insert. destruct (decide (s = v)) as [<-|Hne].
    + split; eauto.
    + rewrite HD. destruct (decide (v ∈ Vertices G)); split; eauto; [by intros [? ?]|done].
  - intros v. rewrite HP.
    destruct (decide (v ∈ Vertices G)); split; eauto; [by intros [? ?]|done].
  - apply lookup_insert_eq.
  - by rewrite HP, decide_True.
  - intros v d [[-> ->]|(_ & -> & _)]%HDs; lia.
  - intros v k [[= -> ->]|Hin]%elem_of_cons.
    + exists 0. by rewrite lookup_insert_eq.
    + apply Hitems in Hin as (v' & [= -> ->] & Hv').
      destruct (decide (v' = s)) as [->|Hne].
      * exists 0. rewrite lookup_insert_eq. split; [done|lia].
      * exists INF. rewrite lookup_insert_ne by done. by rewrite HD, decide_True.
  - intros v d [[-> ->]|(_ & -> & _)]%HDs Hd; [|lia].
    right. apply list_elem_of_here.
  - intros u v du dv Hu. by apply not_elem_of_empty in Hu.
  - intros u du Hu. by apply not_elem_of_empty in Hu.
  - intros u v w du dv Hu. by apply not_elem_of_empty in Hu.
  - intros v d [[-> ->]|(_ & -> & _)]%HDs Hd; [|lia].
    exists [s]. split; [constructor|].
    rewrite size_empty, decide_False by apply not_elem_of_empty. cbn. lia.
  - intros v [[_ Hd]|(Hne & _ & Hv)]%HDs; [lia|]. by rewrite HP, decide_True.
  - intros v Hv. by apply not_elem_of_empty in Hv.
  - intros v Hv _. apply elem_of_cons. right. apply Hitems. eauto.
Qed.

Lemma inv_items_ext E items items' D P S :
  (forall y, y ∈ items <-> y ∈ items') -> inv E items D P S -> inv E items' D P S.
Proof.
  intros Hext [].
  split; try done.
  - intros v k Hin. apply Hext in Hin. eauto.
  - intros v d Hd Hlt. destruct (i_live0 v d Hd Hlt); [by left|]. right. by apply Hext.
  - intros v Hv HS. apply Hext. eauto.
Qed.

Lemma inv_edges_weaken (E E' : Z -> Z -> Prop) items D P S :
  (forall u v w, u ∈ S -> getWeight u v G = Some w -> E' u v -> E u v) ->
  inv E items D P S -> inv E' items D P S.
Proof. intros HE []. split; try done. eauto. Qed.

(** The entry taken off the queue names a vertex visited before. *)
Lemma inv_seen E items items' D P S x :
  inv E items D P S ->
  (forall y, y ∈ items <-> y = x \/ y ∈ items') -> x.1 ∈ S ->
  inv E items' D P S.
Proof.
  intros [] Hpop Hx.
  split; try done.
  - intros v k Hin. apply i_items0, Hpop. by right.
  - intros v d Hd Hlt. destruct (i_live0 v d Hd Hlt) as [?|Hin]; [by left|].
    apply Hpop in Hin as [<-|?]; [by left | by right].
  - intros v Hv HS. destruct (proj1 (Hpop _) (i_pending0 v Hv HS)) as [<-|?]; done.
Qed.

Lemma size_visit (S : gset Z) c : c ∉ S -> size ({[ c ]} ∪ S) = Datatypes.S (size S).
Proof.
  intros Hc. rewrite size_union, size_singleton; [done|].
  intros x ->%elem_of_singleton. done.
Qed.

(** The entry taken off the queue names a vertex that is now marked as
    visited; no edge out of it has been relaxed yet. *)
Lemma inv_mark items items' D P S c k dc :
  inv all_edges items D P S ->
  (forall y, y ∈ items <-> y = (c, k) \/ y ∈ items') ->
  (forall y, y ∈ items -> k <= y.2) ->
  D !! c = Some dc -> dc <> INF -> c ∉ S ->
  inv (edges_but c []) items' D P ({[ c ]} ∪ S)
  /\ (forall u du, u ∈ {[ c ]} ∪ S -> D !! u = Some du -> du <= dc).
Proof.
  intros Hinv Hpop Hmin Hdc Hfin Hc. pose proof Hinv as [].
  assert (Hdc' : dc < INF) by (pose proof (i_range0 c dc Hdc); lia).
  assert (Hk : k = dc).
  { assert (Hin : (c, k) ∈ items) by (apply Hpop; by left).
    destruct (i_items0 c k Hin) as (d & Hd & Hle).
    assert (d = dc) as -> by congruence.
    destruct (i_live0 c dc Hdc Hdc') as [?|Hlive]; [done|].
    pose proof (Hmin _ Hlive) as Hle'. cbn in Hle'. lia. }
  subst k.
  assert (HcV : c ∈ Vertices G) by (apply i_dist0; eauto).
  split; [split; try done|].
  - intros v k Hin. apply i_items0, Hpop. by right.
  - intros v d Hd Hlt. rewrite elem_of_union, elem_of_singleton.
    destruct (i_live0 v d Hd Hlt) as [?|Hin]; [by left; right|].
    apply Hpop in Hin as [[= -> ->]|?]; [by left; left | by right].
  - intros u v du dv [->%elem_of_singleton|Hu]%elem_of_union Hv Hdu Hdv.
    + assert (du = dc) as -> by congruence.
      assert (HvS : v ∉ S) by (intros ?; apply Hv, elem_of_union; by right).
      destruct (decide (dv < INF)) as [Hlt|Hge].
      * destruct (i_live0 v dv Hdv Hlt) as [?|Hin]; [done|].
        pose proof (Hmin _ Hin) as Hle. cbn in Hle. lia.
      * lia.
    + apply (i_order0 u v); try done. intros ?. apply Hv, elem_of_union. by right.
  - intros u du [->%elem_of_singleton|Hu]%elem_of_union Hdu; [|eauto].
    by assert (du = dc) as -> by congruence.
  - intros u v w du dv [->%elem_of_singleton|Hu]%elem_of_union [Hne|Hin] Hw Hdu Hdv.
    + done.
    + by apply elem_of_nil in Hin.
    + by eapply (i_edges0 u v).
    + by apply elem_of_nil in Hin.
  - intros v d Hd Hlt. destruct (i_chain0 v d Hd Hlt) as (p & Hch & Hlen).
    exists p. split.
    + eapply chain_mono; [done | | done]. intros x Hx. apply elem_of_union. by right.
    + rewrite size_visit by done.
      destruct (decide (v ∈ S)) as [HvS|HvS].
      * rewrite decide_True by (apply elem_of_union; by right). lia.
      * destruct (decide (v ∈ {[c]} ∪ S)); lia.
  - intros v [->%elem_of_singleton|Hv]%elem_of_union; eauto.
  - intros v Hv HvS.
    assert (Hvc : v <> c).
    { intros ->. apply HvS, elem_of_union. left. by apply elem_of_singleton. }
    assert (HvS' : v ∉ S) by (intros ?; apply HvS, elem_of_union; by right).
    destruct (proj1 (Hpop _) (i_pending0 v Hv HvS')) as [[= -> _]|?]; done.
  - intros u du [->%elem_of_singleton|Hu]%elem_of_union Hdu.
    + assert (du = dc) as -> by congruence. lia.
    + by apply (i_order0 u c).
Qed.

(** The relaxation of the edge [(c, b)] when it shortens the way to [b]. *)
Lemma inv_improve seen items D P S c dc b w db :
  inv (edges_but c seen) items D P S ->
  c ∈ S -> D !! c = Some dc ->
  (forall u du, u ∈ S -> D !! u = Some du -> du <= dc) ->
  getWeight c b G = Some w -> D !! b = Some db -> dc + w < db ->
  inv (edges_but c (seen ++ [b])) ((b, dc + w) :: items)
      (<[b := dc + w]> D) (<[b := c]> P) S
  /\ <[b := dc + w]> D !! c = Some dc
  /\ (forall u du, u ∈ S -> <[b := dc + w]> D !! u = Some du -> du <= dc).
Proof.
  intros Hinv Hc Hdc Hmax Hw Hdb Hlt. pose proof Hinv as [].
  pose proof (Hnonneg c b w Hw) as Hw0.
  pose proof (i_range0 c dc Hdc) as Hrc.
  pose proof (i_range0 b db Hdb) as Hrb.
  assert (HbS : b ∉ S).
  { intros HbS. pose proof (Hmax b db HbS Hdb). lia. }
  assert (Hbs : b <> s).
  { intros ->. assert (db = 0) by congruence. lia. }
  assert (Hbc : b <> c) by (by intros ->).
  assert (HbV : b ∈ Vertices G) by (apply i_dist0; eauto).
  assert (HD' : forall x, x <> b -> <[b := dc + w]> D !! x = D !! x).
  { intros x Hx. by rewrite lookup_insert_ne. }
  assert (HP' : forall x, x <> b -> <[b := c]> P !! x = P !! x).
  { intros x Hx. by rewrite lookup_insert_ne. }
  assert (HDS : forall x, x ∈ S -> <[b := dc + w]> D !! x = D !! x).
  { intros x Hx. apply HD'. by intros ->. }
  split_and!; [split| by rewrite HD' | intros u du Hu; rewrite HDS by done; eauto].
  - intros v. rewrite lookup_insert. destruct (decide (b = v)) as [<-|]; [split; eauto|done].
  - intros v. rewrite lookup_insert. destruct (decide (b = v)) as [<-|]; [split; eauto|done].
  - by rewrite HD'.
  - by rewrite HP'.
  - intros v d. rewrite lookup_insert. destruct (decide (b = v)) as [<-|]; [|eauto].
    intros [= <-]. lia.
  - intros v k [[= -> ->]|Hin]%elem_of_cons.
    + exists (dc + w). by rewrite lookup_insert_eq.
    + destruct (i_items0 v k Hin) as (d & Hd & Hle).
      destruct (decide (v = b)) as [->|Hne].
      * exists (dc + w). rewrite lookup_insert_eq. split; [done|].
        assert (d = db) by congruence. lia.
      * exists d. by rewrite HD'.
  - intros v d. rewrite lookup_insert. destruct (decide (b = v)) as [<-|Hne].
    + intros [= <-] _. right. apply list_elem_of_here.
    + intros Hd Hfin. destruct (i_live0 v d Hd Hfin); [by left|].
      right. by apply elem_of_cons; right.
  - intros u v du dv Hu Hv. rewrite HDS by done. intros Hdu.
    rewrite lookup_insert. destruct (decide (b = v)) as [<-|Hne].
    + intros [= <-]. pose proof (Hmax u du Hu Hdu). lia.
    + intros Hdv. by apply (i_order0 u v).
  - intros u du Hu. rewrite HDS by done. eauto.
  - intros u v w' du dv Hu HE Hw'. rewrite HDS by done. intros Hdu.
    rewrite lookup_insert. destruct (decide (b = v)) as [<-|Hne].
    + intros [= <-]. destruct (decide (u = c)) as [->|Huc].
      * assert (w' = w) by congruence. assert (du = dc) by congruence. lia.
      * pose proof (i_edges0 u b w' du db Hu (or_introl Huc) Hw' Hdu Hdb). lia.
    + intros Hdv. apply (i_edges0 u v w' du dv); try done.
      revert HE. intros [?|[?| ->%list_elem_of_singleton]%elem_of_app];
        [by left | by right | done].
  - intros v d. rewrite lookup_insert. destruct (decide (b = v)) as [<-|Hne].
    + intros [= <-] _.
      destruct (i_chain0 c dc Hdc (i_fin0 c dc Hc Hdc)) as (pc & Hch & Hlen).
      rewrite decide_True in Hlen by done.
      exists (b :: pc). split.
      * apply (chain_edge _ _ _ b c w dc); [apply lookup_insert_eq | done | by rewrite HD'
          | done | apply lookup_insert_eq | ].
        eapply chain_mono; [done | done |].
        intros x Hx. assert (x <> b).
        { destruct (chain_elems _ _ _ _ _ x Hch Hx) as [->|?]; [done | by intros ->]. }
        by rewrite HD', HP'.
      * rewrite decide_False by done. cbn. lia.
    + intros Hd Hfin. destruct (i_chain0 v d Hd Hfin) as (p & Hch & Hlen).
      exists p. split; [|done].
      eapply chain_mono; [done | done |].
      intros x Hx. assert (x <> b).
      { destruct (chain_elems _ _ _ _ _ x Hch Hx) as [->|?]; [done | by intros ->]. }
      by rewrite HD', HP'.
  - intros v. rewrite lookup_insert. destruct (decide (b = v)) as [<-|Hne].
    + intros [= ?]. lia.
    + intros Hd. rewrite HP' by done. eauto.
  - done.
  - intros v Hv HvS. apply elem_of_cons. right. eauto.
Qed.

(** The relaxation of the edge [(c, b)] when it does not shorten the way. *)
Lemma inv_keep seen items D P S c dc b w db :
  inv (edges_but c seen) items D P S ->
  D !! c = Some dc -> getWeight c b G = Some w -> D !! b = Some db ->
  ~ dc + w < db ->
  inv (edges_but c (seen ++ [b])) items D P S.
Proof.
  intros Hinv Hdc Hw Hdb Hge. pose proof Hinv as [].
  split; try done.
  intros u v w' du dv Hu HE Hw' Hdu Hdv.
  revert HE. intros [?|[?| ->%list_elem_of_singleton]%elem_of_app].
  - apply (i_edges0 u v w'); try done. by left.
  - apply (i_edges0 u v w'); try done. by right.
  - destruct (decide (u = c)) as [->|Huc].
    + assert (w' = w) by congruence. assert (du = dc) by congruence.
      assert (dv = db) by congruence. lia.
    + apply (i_edges0 u b w'); try done. by left.
Qed.

(** Once every neighbour of [c] has had its turn, every edge out of a
    visited vertex is relaxed. *)
Lemma inv_done items D P S c :
  inv (edges_but c (neighbors c G)) items D P S -> inv all_edges items D P S.
Proof.
  apply inv_edges_weaken. intros u v w Hu Hw _.
  destruct (decide (u = c)) as [->|?]; [|by left].
  right. apply getWeight_neighbors; eauto.
Qed.

(** What the invariant says about the walks from [s]: a visited vertex is
    no farther than any walk to it is long, and a walk to a vertex not yet
    visited is at least as long as some unvisited vertex is far. *)
Lemma inv_walk items D P S v L :
  inv all_edges items D P S -> walk G s v L ->
  0 <= L
  /\ (v ∈ S -> exists d, D !! v = Some d /\ d <= L)
  /\ (v ∉ S -> exists y dy, (y ∉ S) /\ D !! y = Some dy /\ dy <= L).
Proof.
  intros []. induction 1 as [|u v w L Hwalk IH Hw].
  - split_and!; [done | intros _; by exists 0 | intros HsS; by exists s, 0].
  - destruct IH as (HL & IHin & IHout).
    pose proof (Hnonneg u v w Hw) as Hw0.
    destruct (getWeight_vertices G u v w Hwf Hw) as [HuV HvV].
    apply i_dist0 in HuV as [du Hdu]. apply i_dist0 in HvV as [dv Hdv].
    destruct (decide (u ∈ S)) as [Hu|Hu].
    + destruct (IHin Hu) as (du' & Hdu' & Hle).
      assert (du' = du) as -> by congruence.
      pose proof (i_edges0 u v w du dv Hu I Hw Hdu Hdv) as Hrel.
      split_and!; [lia | intros _; exists dv; split; [done|lia] |].
      intros Hv. exists v, dv. split_and!; [done | done | lia].
    + destruct (IHout Hu) as (y & dy & Hy & Hdy & Hle).
      split_and!; [lia | | intros _; exists y, dy; split_and!; [done | done | lia]].
      intros Hv. exists dv. split; [done|].
      pose proof (i_order0 v y dv dy Hv Hy Hdv Hdy). lia.
Qed.

(** *** The invariant along a run *)

Section Run.
Context {Q : Type} `{PriorityQueue Q}.

Definition Inv (E : Z -> Z -> Prop) (st : dstate Q) : Prop :=
  inv E (pq_items (unvisitedQ st)) (distances st) (predecessors st) (visitedVertices st).

(** The relaxation loop of a vertex [c] just marked as visited. *)
Lemma relax_loop_inv c dc (st : dstate Q) :
  Inv (edges_but c []) st -> c ∈ visitedVertices st -> distances st !! c = Some dc ->
  (forall u du, u ∈ visitedVertices st -> distances st !! u = Some du -> du <= dc) ->
  exists st', foldM (relax G c) (neighbors c G) st = Returns st'
    /\ Inv (edges_but c (neighbors c G)) st'
    /\ visitedVertices st' = visitedVertices st
    /\ currentV st' = currentV st
    /\ (length (pq_items (unvisitedQ st'))
        <= length (pq_items (unvisitedQ st)) + length (neighbors c G))%nat.
Proof.
  intros Hinv Hc Hdc Hmax.
  destruct (foldM_inv (relax G c)
    (fun seen st' => Inv (edges_but c seen) st'
       /\ distances st' !! c = Some dc
       /\ (forall u du, u ∈ visitedVertices st' -> distances st' !! u = Some du -> du <= dc)
       /\ visitedVertices st' = visitedVertices st
       /\ currentV st' = currentV st
       /\ (length (pq_items (unvisitedQ st'))
           <= length (pq_items (unvisitedQ st)) + length seen)%nat)
    (neighbors c G) st) as (st' & Hst' & HI & _ & _ & HS & HC & Hlen).
  - split_and!; try done. cbn. lia.
  - intros seen b st0 (Hi0 & Hdc0 & Hmax0 & HS0 & HC0 & Hlen0) Hb.
    apply getWeight_neighbors in Hb as [w Hw]; [|done].
    destruct (getWeight_vertices G c b w Hwf Hw) as [_ HbV].
    apply (i_dist _ _ _ _ _ Hi0) in HbV as [db Hdb].
    rewrite (relax_eq G c b st0 dc db w) by done.
    eexists. split; [done|]. rewrite length_app. cbn [length].
    assert (Hc0 : c ∈ visitedVertices st0) by (by rewrite HS0).
    case_bool_decide as Hlt.
    + destruct (inv_improve seen _ _ _ _ c dc b w db Hi0 Hc0 Hdc0 Hmax0 Hw Hdb Hlt)
        as (Hi1 & Hdc1 & Hmax1).
      unfold Inv. cbn. split_and!; try done; [|rewrite length_push; lia].
      eapply inv_items_ext; [|exact Hi1].
      intros y. by rewrite elem_of_push, elem_of_cons.
    + unfold Inv. cbn. split_and!; try done; [|lia].
      by eapply inv_keep.
  - exists st'. split_and!; done.
Qed.

(** How the main loop can be left: at a vertex [c] whose distance is still
    [INF], in which case neither [c] nor [endV] is within [INF] of [s]; or
    at [endV], visited, with the invariant in force. *)
Definition stopped (endV : Z) (st : dstate Q) : Prop :=
  exists c, currentV st = Some c /\ c ∈ Vertices G
    /\ distances st !! c = Some INF /\ predecessors st !! c = Some (-1)
    /\ (forall L, walk G s c L -> INF <= L)
    /\ (forall L, walk G s endV L -> INF <= L).

Definition found (endV : Z) (st : dstate Q) : Prop :=
  currentV st = Some endV /\ endV ∈ visitedVertices st /\ Inv all_edges st.

Lemma visit_inv endV top q' (st : dstate Q) :
  Inv all_edges st -> endV ∉ visitedVertices st ->
  pq_pop (unvisitedQ st) = Some (top, q') ->
  exists fl st', visit G endV top q' st = Returns (fl, st')
    /\ match fl with
       | Break => stopped endV st' \/ found endV st'
       | Continue =>
           (Inv all_edges st' /\ endV ∉ visitedVertices st')
           /\ (measure G st' < measure G st)%nat
       end.
Proof.
  intros Hinv Hend Hpop. destruct top as [c k].
  pose proof (fun y => elem_of_pop _ _ _ y Hpop) as Hitems. cbn [fst] in *.
  pose proof (length_pop _ _ _ Hpop) as Hlen.
  assert (Htop : (c, k) ∈ pq_items (unvisitedQ st)) by (apply Hitems; by left).
  destruct (i_items _ _ _ _ _ Hinv c k Htop) as (dc & Hdc & Hle).
  assert (HcV : c ∈ Vertices G) by (apply (i_dist _ _ _ _ _ Hinv); eauto).
  destruct (decide (dc = INF)) as [->|Hfin].
  { rewrite (visit_inf G) by done. eexists _, _. split; [done|]. left.
    assert (Hfar : forall v L, walk G s v L -> L < INF -> v ∈ visitedVertices st).
    { intros v L Hwalk HL. destruct (decide (v ∈ visitedVertices st)) as [?|Hv]; [done|].
      destruct (inv_walk _ _ _ _ v L Hinv Hwalk) as (_ & _ & Hout).
      destruct (Hout Hv) as (y & dy & Hy & Hdy & Hley).
      destruct (i_live _ _ _ _ _ Hinv y dy Hdy) as [?|Hin]; [lia | done |].
      pose proof (pop_least _ _ _ _ Hpop Hin) as Hmin. cbn in Hmin. lia. }
    exists c. cbn. split_and!; try done.
    - by apply (i_fresh _ _ _ _ _ Hinv).
    - intros L Hwalk. destruct (decide (L < INF)) as [HL|?]; [|lia].
      pose proof (Hfar c L Hwalk HL) as HcS.
      pose proof (i_fin _ _ _ _ _ Hinv c INF HcS Hdc). lia.
    - intros L Hwalk. destruct (decide (L < INF)) as [HL|?]; [|lia].
      by pose proof (Hfar endV L Hwalk HL). }
  destruct (decide (c ∈ visitedVertices st)) as [Hin|Hnin].
  { rewrite (visit_seen G _ _ _ _ dc) by done. eexists _, _. split; [done|].
    split_and!; [|done|unfold measure; cbn; lia].
    unfold Inv. cbn. by eapply inv_seen. }
  destruct (inv_mark _ _ _ _ _ c k dc Hinv Hitems) as [Hmark Hmax]; try done.
  { intros y Hy. apply (pop_least _ _ _ _ Hpop Hy). }
  destruct (relax_loop_inv c dc (marked (c, k) q' st)) as (st3 & Hfold & Hi3 & HS3 & HC3 & Hlen3);
    try done.
  { cbn. apply elem_of_union. left. by apply elem_of_singleton. }
  rewrite (visit_new G _ _ _ _ st3 dc) by done.
  eexists _, st3. split; [done|]. cbn in HS3, HC3, Hlen3.
  apply inv_done in Hi3.
  case_bool_decide as Hce; cbn [fst] in Hce.
  - right. subst c. split_and!; [done | | done].
    rewrite HS3. apply elem_of_union. left. by apply elem_of_singleton.
  - split_and!; [done | |].
    + rewrite HS3. intros [->%elem_of_singleton|?]%elem_of_union; done.
    + unfold measure. rewrite HS3.
      pose proof (pending_visit G Hwf (visitedVertices st) c HcV Hnin). lia.
Qed.

Lemma scan_inv endV fuel (st : dstate Q) :
  endV ∈ Vertices G -> Inv all_edges st -> endV ∉ visitedVertices st ->
  (measure G st < fuel)%nat ->
  exists st', scan fuel G endV st = Returns st' /\ (stopped endV st' \/ found endV st').
Proof.
  intros HendV Hinv Hend Hmu.
  apply (scan_rule G endV
    (fun st => Inv all_edges st /\ endV ∉ visitedVertices st)
    (fun st => stopped endV st \/ found endV st)
    (measure G)); [ | | done | done].
  - intros st0 [Hi0 He0] Hpop. apply pq_pop_empty in Hpop.
    pose proof (i_pending _ _ _ _ _ Hi0 endV HendV He0) as Hin.
    rewrite Hpop in Hin. by apply elem_of_nil in Hin.
  - intros st0 top q' [Hi0 He0] Hpop. by apply visit_inv.
Qed.

Lemma entry_inv (st0 : dstate Q) :
  initialised (Vertices G) st0 -> Inv all_edges (entry s st0).
Proof.
  intros Hi. unfold Inv. cbn. rewrite (init_visited _ _ Hi).
  eapply inv_items_ext;
    [|apply (inv_entry (pq_items (unvisitedQ st0)) (distances st0) (predecessors st0))].
  - intros y. by rewrite elem_of_push, elem_of_cons.
  - apply (init_dist _ _ Hi).
  - apply (init_pred _ _ Hi).
  - intros x. rewrite (init_items _ _ Hi), list_elem_of_fmap. done.
Qed.

Lemma visited_size (S : gset Z) :
  (forall v, v ∈ S -> v ∈ Vertices G) -> (size S <= length (Vertices G))%nat.
Proof.
  intros Hsub. rewrite <- (size_list_to_set (C := gset Z) (Vertices G)) by apply Hwf.
  apply subseteq_size. intros v Hv. apply elem_of_list_to_set. auto.
Qed.

(** What a call returns, for a target [endV] of the graph and a budget of
    [work G]: either the loop stopped at a vertex [c] that is not within
    [INF] of the start, and then the target is not either, and the call
    returns [-1], or [INF] when [c] is the target itself; or the call
    returns the length [d] of a shortest walk and, appended to [path], the
    vertices of a path of that weight from the target back to the start. *)
Lemma Dijkstra_cases fuel endV path :
  endV ∈ Vertices G -> (work G <= fuel)%nat ->
  (exists c, c ∈ Vertices G
     /\ (forall L, walk G s c L -> INF <= L)
     /\ (forall L, walk G s endV L -> INF <= L)
     /\ Dijkstra fuel G s endV path
        = Returns (if bool_decide (c = endV) then (INF, path ++ [endV]) else (-1, path)))
  \/ (exists d p,
        Dijkstra fuel G s endV path = Returns (d, path ++ p)
        /\ d < INF /\ walk G s endV d /\ (forall L, walk G s endV L -> d <= L)
        /\ path_weight G p = Some d /\ head p = Some endV /\ last p = Some s).
Proof.
  intros HendV Hfuel.
  destruct (Dijkstra_unfold G fuel s endV path Hs) as (st0 & Hi & ->).
  destruct (scan_inv endV fuel (entry s st0)) as (st & -> & Hpost); try done.
  - by apply entry_inv.
  - cbn. rewrite (init_visited _ _ Hi). apply not_elem_of_empty.
  - pose proof (entry_measure G s st0 Hi). lia.
  - cbn. destruct Hpost as [(c & Hc & HcV & Hdc & Hpc & Hfarc & Hfare)|(Hc & HeS & Hinv)].
    + left. exists c. split_and!; try done. rewrite Hc. cbn.
      destruct (decide (c = endV)) as [->|Hne].
      * rewrite bool_decide_eq_false_2 by (by intros ?).
        rewrite bool_decide_eq_true_2 by done.
        rewrite (map_at_Some _ _ _ Hpc). cbn.
        assert (Hbt : backTrace fuel (predecessors st) (-1) (path ++ [endV])
                      = Returns (path ++ [endV])).
        { destruct fuel; [unfold work in Hfuel; lia | done]. }
        rewrite Hbt. cbn. by rewrite (map_at_Some _ _ _ Hdc).
      * rewrite bool_decide_eq_true_2 by done.
        by rewrite bool_decide_eq_false_2 by done.
    + right. rewrite Hc. cbn. rewrite bool_decide_eq_false_2 by (by intros ?).
      destruct (proj2 (i_dist _ _ _ _ _ Hinv endV) HendV) as [d Hd].
      destruct (proj2 (i_pred _ _ _ _ _ Hinv endV) HendV) as [bt Hbt].
      pose proof (i_fin _ _ _ _ _ Hinv endV d HeS Hd) as Hfin.
      destruct (i_chain _ _ _ _ _ Hinv endV d Hd Hfin) as (p & Hch & Hlen).
      rewrite decide_True in Hlen by done.
      pose proof (visited_size _ (i_sub _ _ _ _ _ Hinv)) as Hsize.
      destruct (chain_path _ _ _ _ _ (i_src_d _ _ _ _ _ Hinv) Hch)
        as (d' & Hd' & Hwalk & Hpw & Hhd & Hlast).
      assert (d' = d) as -> by congruence.
      exists d, p. split_and!; try done.
      * rewrite (map_at_Some _ _ _ Hbt). cbn.
        assert (HS : forall x, x ∈ visitedVertices st -> x <> -1).
        { intros x Hx ->. apply Hminus. by apply (i_sub _ _ _ _ _ Hinv). }
        assert (Hfl : (length p <= fuel)%nat) by (unfold work in Hfuel; lia).
        rewrite (chain_backTrace _ _ _ _ _ fuel bt path (i_src_p _ _ _ _ _ Hinv) HS Hch Hbt Hfl).
        cbn. by rewrite (map_at_Some _ _ _ Hd).
      * intros L HL.
        destruct (inv_walk _ _ _ _ endV L Hinv HL) as (_ & Hin & _).
        destruct (Hin HeS) as (d0 & Hd0 & Hle). assert (d0 = d) by congruence. lia.
Qed.

End Run.

End EngineInvariant.

(** *** What [Dijkstra] returns *)

Section EngineTheorems.
Import Graph Engine Paths.

Lemma findWeight_elem to es w :
  findWeight to es = Some w -> {| toVert := to; toWeight := w |} ∈ es.
Proof.
  induction es as [|e es IH]; csimpl; [done|].
  case_bool_decide as He.
  - intros [= <-]. destruct e; cbn in *; subst. apply list_elem_of_here.
  - intros Hw. apply list_elem_of_further. auto.
Qed.

(** A test for non-negative weights. *)
Definition nonnegativeb (G : graph) : bool :=
  forallb (fun v => forallb (fun e => bool_decide (0 <= toWeight e)) (adj G v)) (Vertices G).

Lemma nonnegativeb_correct G : wf G -> nonnegativeb G = true -> nonnegative G.
Proof.
  intros Hwf Hb u v w Hw.
  destruct (getWeight_vertices G u v w Hwf Hw) as [Hu Hv].
  rewrite getWeight_adj in Hw by (by apply (wf_dom G Hwf)).
  apply findWeight_elem in Hw.
  unfold nonnegativeb in Hb. rewrite forallb_forall in Hb.
  specialize (Hb u (proj1 (list_elem_of_In _ _) Hu)).
  rewrite forallb_forall in Hb.
  specialize (Hb _ (proj1 (list_elem_of_In _ _) Hw)).
  by apply bool_decide_eq_true in Hb.
Qed.




(** When the target is the only vertex out of reach, the value returned is
    [INF]. *)
Lemma Dijkstra_lone_target `{PriorityQueue Q}
    (G : graph) (startV endV : Z) (path : list Z) (fuel : nat) :
  wf G -> nonnegative G -> -1 ∉ Vertices G ->
  startV ∈ Vertices G -> endV ∈ Vertices G ->
  (forall L, walk G startV endV L -> INF <= L) ->
  (forall v, v ∈ Vertices G -> v <> endV -> exists L, walk G startV v L /\ L < INF) ->
  (work G <= fuel)%nat ->
  Dijkstra fuel G startV endV path = Returns (INF, path ++ [endV]).
Proof.
  intros Hwf Hnn Hm Hs Ht Hfar Hnear Hfuel.
  destruct (Dijkstra_cases G Hwf Hnn Hm startV Hs fuel endV path Ht Hfuel)
    as [(c & HcV & Hc & _ & Hrun)|(d & p & _ & Hd & Hw & _)].
  - rewrite Hrun. case_bool_decide as Hce; [done|].
    destruct (Hnear c HcV Hce) as (L & HL & Hlt). specialize (Hc L HL). lia.
  - specialize (Hfar d Hw). lia.
Qed.

End EngineTheorems.

(** *** Two vertices and no edge *)

Section IsolatedPair.
Import Graph Engine Paths.

(** The graph with the vertices 1 and 2 and no edge. *)
Definition pair_graph : graph := build [AddVertex 1; AddVertex 2].

Lemma pair_graph_no_edge u v : getWeight u v pair_graph = None.
Proof.
  destruct (getWeight u v pair_graph) as [w|] eqn:Hw; [|done].
  destruct (getWeight_vertices _ u v w (wf_build _) Hw) as [Hu _].
  apply getWeight_Some_adj in Hw.
  assert (Hadj : adj pair_graph u = []).
  { apply list_elem_of_In in Hu. vm_compute in Hu.
    destruct Hu as [<-|[<-|[]]]; reflexivity. }
  rewrite Hadj in Hw. by apply elem_of_nil in Hw.
Qed.

Lemma pair_graph_walk s v L : walk pair_graph s v L -> v = s /\ L = 0.
Proof.
  destruct 1 as [|u v w L _ Hw]; [done|]. by rewrite pair_graph_no_edge in Hw.
Qed.

(** Whatever the queue, the call from 1 to 2 returns [INF] and the
    one-vertex path [2]. *)
Lemma pair_graph_run `{PriorityQueue Q} (n : nat) (path : list Z) :
  Dijkstra (4 + n) pair_graph 1 2 path = Returns (INF, path ++ [2]).
Proof.
  apply Dijkstra_lone_target.
  - apply wf_build.
  - intros u v w Hw. by rewrite pair_graph_no_edge in Hw.
  - intros Hin. apply list_elem_of_In in Hin. vm_compute in Hin.
    destruct Hin as [?|[?|[]]]; discriminate.
  - apply list_elem_of_In. vm_compute. auto.
  - apply list_elem_of_In. vm_compute. auto.
  - intros L [? _]%pair_graph_walk. discriminate.
  - intros v Hv Hne. apply list_elem_of_In in Hv. vm_compute in Hv.
    destruct Hv as [<-|[<-|[]]]; [|done].
    exists 0. split; [constructor | reflexivity].
  - vm_compute. lia.
Qed.

End IsolatedPair.

Section SplitCampus.
Import Graph Paths Selector.

(** From node 1 of the split campus only the nodes 1, 2 and 3 are reached. *)
Lemma split_graph_side v L : walk split_graph 1 v L -> v = 1 \/ v = 2 \/ v = 3.
Proof.
  assert (HV : Vertices split_graph = [1; 2; 3; 4; 5]) by (vm_compute; reflexivity).
  induction 1 as [|u v w L _ IH Hw]; [by left|].
  destruct (getWeight_vertices split_graph u v w (wf_build _) Hw) as [_ Hv].
  rewrite HV in Hv. apply list_elem_of_In in Hv. cbn in Hv.
  destruct Hv as [<-|[<-|[<-|[<-|[<-|[]]]]]]; auto;
    destruct IH as [->|[->| ->]];
    match type of Hw with
    | getWeight ?a ?b ?g = _ =>
        assert (E : getWeight a b g = None) by (vm_compute; reflexivity);
        rewrite E in Hw; discriminate Hw
    end.
Qed.

End SplitCampus.



(** C2 fails on the code: in the graph with the vertices 1 and 2 and no
    edge, no walk leads from 1 to 2, and yet [Dijkstra] from 1 to 2 returns
    [INF], the largest finite [double], with the vertex 2 appended to
    [path], and not the [-1] that stands for "no path". This is so for
    every priority queue and every budget of at least four iterations. *)
Theorem unreachable_target_returns_INF `{Engine.PriorityQueue Q} (n : nat) (path : list Z) :
  (forall L, ~ Paths.walk pair_graph 1 2 L)
  /\ Engine.Dijkstra (4 + n) pair_graph 1 2 path = Returns (Engine.INF, path ++ [2])
  /\ Engine.INF <> -1.
Proof.
  split_and!; [ | apply pair_graph_run | done].
  intros L [? _]%pair_graph_walk. discriminate.
Qed.

(** C1 fails on the code: on the same input the call returns a distance
    and a path although nothing leads from 1 to 2: the distance is the
    length of no walk, and the returned sequence does not end at the
    source. *)
Theorem returned_distance_without_walk `{Engine.PriorityQueue Q} (n : nat) :
  exists d p,
    Engine.Dijkstra (4 + n) pair_graph 1 2 [] = Returns (d, p)
    /\ d <> -1
    /\ ~ Paths.walk pair_graph 1 2 d
    /\ last p <> Some 1.
Proof.
  exists Engine.INF, [2]. split_and!; [apply (pair_graph_run n []) | done | | done].
  intros [? _]%pair_graph_walk. discriminate.
Qed.

(** C9 fails on the code: on the same input the distance returned is [INF]
    while the path returned, the single vertex 2, has weight 0. *)
Theorem returned_distance_is_not_path_weight `{Engine.PriorityQueue Q} (n : nat) :
  exists d p,
    Engine.Dijkstra (4 + n) pair_graph 1 2 [] = Returns (d, p)
    /\ Paths.path_weight pair_graph p = Some 0
    /\ d <> 0.
Proof.
  exists Engine.INF, [2]. split_and!; [apply (pair_graph_run n []) | done | done].
Qed.

(** ** The meeting-point selector *)

Section EngineTotal.
Import Graph Engine Paths.
Context {Q : Type} `{PriorityQueue Q}.

(** On a well-formed graph with non-negative weights and no vertex [-1],
    a call with a budget of [work G] ends: it returns, or [at()] throws
    because the start is no vertex. *)
Lemma Dijkstra_ends (G : graph) fuel startV endV path :
  wf G -> nonnegative G -> -1 ∉ Vertices G -> (work G <= fuel)%nat ->
  Dijkstra fuel G startV endV path <> OutOfFuel.
Proof.
  intros Hwf Hnn Hm Hfuel.
  destruct (decide (startV ∈ Vertices G)) as [Hs|Hs].
  - destruct (decide (endV ∈ Vertices G)) as [Ht|Ht].
    + destruct (Dijkstra_cases G Hwf Hnn Hm startV Hs fuel endV path Ht Hfuel)
        as [(c & _ & _ & _ & ->)|(d & p & -> & _)]; done.
    + by rewrite (Dijkstra_absent_target G Hwf).
  - destruct (init_loop (Q := Q) (Vertices G)) as (st0 & Hinit & Hi).
    unfold Dijkstra, getVertices. rewrite Hinit. cbn.
    rewrite (map_at_None (distances st0) startV); [done|].
    by rewrite (init_dist _ _ Hi startV), decide_False by done.
Qed.

End EngineTotal.

Section SelectorFacts.
Import Graph Engine Paths Selector.
Variable distBetween2Points : Z -> Z -> Z -> Z -> Z.
Variable centerBetween2Points : Z -> Z -> Z -> Z -> Coordinates.
Context {Q : Type} `{PriorityQueue Q}.

#[local] Abbreviation getCenterBuildingIndex :=
  (Selector.getCenterBuildingIndex distBetween2Points).
#[local] Abbreviation getClosestNode := (Selector.getClosestNode distBetween2Points).
#[local] Abbreviation retry := (Selector.retry distBetween2Points).
#[local] Abbreviation query :=
  (Selector.query distBetween2Points centerBetween2Points).

(** *** The selection of a center *)

Lemma centerScan_result midLat midLon invalid bs i min minIndex :
  let r := centerScan distBetween2Points midLat midLon invalid bs i min minIndex in
  r = minIndex
  \/ (i <= r /\ exists b, bs !! Z.to_nat (r - i) = Some b /\ Fullname b ∉ invalid).
Proof.
  revert i min minIndex. induction bs as [|b bs IH]; intros i min minIndex; cbn.
  - by left.
  - assert (Hshift : forall r, i + 1 <= r ->
              (b :: bs) !! Z.to_nat (r - i) = bs !! Z.to_nat (r - (i + 1))).
    { intros r Hr. replace (r - i) with (Z.succ (r - (i + 1))) by lia.
      by rewrite Z2Nat.inj_succ by lia. }
    case_bool_decide as Hinv.
    + destruct (IH (i + 1) min minIndex) as [->|(Hle & b' & Hb' & Hn)]; [by left|].
      right. split; [lia|]. exists b'. by rewrite Hshift.
    + case_bool_decide as Hlt.
      * destruct (IH (i + 1)
                    (distBetween2Points midLat midLon (Lat (Coords b)) (Lon (Coords b))) i)
          as [->|(Hle & b' & Hb' & Hn)].
        -- right. split; [lia|]. exists b. by rewrite Z.sub_diag.
        -- right. split; [lia|]. exists b'. by rewrite Hshift.
      * destruct (IH (i + 1) min minIndex) as [->|(Hle & b' & Hb' & Hn)]; [by left|].
        right. split; [lia|]. exists b'. by rewrite Hshift.
Qed.

(** The index returned is [-1] or that of a building whose name is not
    in the set. *)
Lemma getCenterBuildingIndex_result Buildings midpoint invalid :
  getCenterBuildingIndex Buildings midpoint invalid = -1
  \/ exists b,
       vector_at Buildings (getCenterBuildingIndex Buildings midpoint invalid) = Returns b
       /\ b ∈ Buildings /\ Fullname b ∉ invalid.
Proof.
  unfold Selector.getCenterBuildingIndex.
  destruct (centerScan_result (Lat midpoint) (Lon midpoint) invalid Buildings 0 INF (-1))
    as [?|(Hle & b & Hb & Hn)]; [by left|].
  right. exists b. rewrite Z.sub_0_r in Hb. split_and!; [|by eapply list_elem_of_lookup_2|done].
  unfold vector_at. rewrite bool_decide_eq_false_2 by lia. by rewrite Hb.
Qed.

(** When every name is in the set no index is found. *)
Lemma getCenterBuildingIndex_none Buildings midpoint (invalid : gset string) :
  (forall b, b ∈ Buildings -> Fullname b ∈ invalid) ->
  getCenterBuildingIndex Buildings midpoint invalid = -1.
Proof.
  unfold Selector.getCenterBuildingIndex. generalize 0 INF (-1).
  induction Buildings as [|b bs IH]; intros i min minIndex Hall; [done|]. cbn.
  rewrite bool_decide_eq_true_2 by (apply Hall, list_elem_of_here).
  apply IH. intros b' Hb'. by apply Hall, list_elem_of_further.
Qed.

(** The buildings that can still be selected. *)
Definition candidates (Buildings : list BuildingInfo) (invalid : gset string) : nat :=
  length (filter (fun b => Fullname b ∉ invalid) Buildings).

Lemma candidates_le Buildings invalid : (candidates Buildings invalid <= length Buildings)%nat.
Proof. apply length_filter. Qed.

Lemma candidates_exclude Buildings (invalid : gset string) b :
  b ∈ Buildings -> Fullname b ∉ invalid ->
  (candidates Buildings ({[ Fullname b ]} ∪ invalid) < candidates Buildings invalid)%nat.
Proof.
  unfold candidates. intros Hb Hn.
  assert (Hmono : forall bs,
    (length (filter (fun b0 => Fullname b0 ∉ {[Fullname b]} ∪ invalid) bs)
     <= length (filter (fun b0 => Fullname b0 ∉ invalid) bs))%nat).
  { induction bs as [|x bs IH]; [done|]. rewrite !filter_cons.
    destruct (decide (Fullname x ∉ {[Fullname b]} ∪ invalid)) as [Hx|Hx].
    - rewrite decide_True by (intros ?; apply Hx, elem_of_union; by right).
      cbn. lia.
    - destruct (decide (Fullname x ∉ invalid)); cbn; lia. }
  induction Buildings as [|x bs IH]; [by apply elem_of_nil in Hb|].
  rewrite !filter_cons. apply elem_of_cons in Hb as [<-|Hb].
  - rewrite decide_False.
    2:{ intros Hx. apply Hx, elem_of_union. left. by apply elem_of_singleton. }
    rewrite decide_True by done. cbn. specialize (Hmono bs). lia.
  - specialize (IH Hb).
    destruct (decide (Fullname x ∉ {[Fullname b]} ∪ invalid)) as [Hx|Hx].
    + rewrite decide_True by (intros ?; apply Hx, elem_of_union; by right).
      cbn. lia.
    + destruct (decide (Fullname x ∉ invalid)); cbn; lia.
Qed.

(** *** The loop "find next closest building" *)

Ltac prog_step :=
  cbn [mbind mret Selector.prog_bind Selector.prog_ret Selector.lift Selector.emit
       fst snd app].

Lemma vector_at_negative {A} (v : list A) i : i < 0 -> vector_at v i = OutOfRange.
Proof. intros Hi. unfold vector_at. by rewrite bool_decide_eq_true_2. Qed.

Lemma foldM_fuel {A B} (f : A -> B -> outcome A) l a :
  (forall a0 x, f a0 x <> OutOfFuel) -> foldM f l a <> OutOfFuel.
Proof.
  intros Hf. revert a. induction l as [|x l IH]; intros a; [done|].
  cbn. specialize (Hf a x). destruct (f a x); cbn; auto.
Qed.

Lemma getClosestNode_fuel nodes Footways building :
  getClosestNode nodes Footways building <> OutOfFuel.
Proof.
  unfold Selector.getClosestNode.
  match goal with |- context [foldM ?f ?l ?a] =>
    pose proof (foldM_fuel f l a) as Hfold; destruct (foldM f l a) as [st| | |] end;
    cbn; try done.
  - destruct st.2 as [minID|]; cbn; [|done]. unfold map_at. by destruct (nodes !! minID).
  - exfalso. apply Hfold; [|done]. intros a0 fw. apply foldM_fuel.
    intros st j. unfold closestStep, map_at. destruct (nodes !! j); cbn; [|done].
    by case_bool_decide.
Qed.

(** A round of the loop, by the results of the calls it makes. *)
Lemma retry_round rounds fuel nodes Footways Buildings G midpoint p1Coords p2Coords
    invalid centerBuilding :
  let invalid' := {[ Fullname centerBuilding ]} ∪ invalid in
  let index := getCenterBuildingIndex Buildings midpoint invalid' in
  let head := [SaidRetry; Selected invalid' index] in
  retry (S rounds) fuel nodes Footways Buildings G midpoint p1Coords p2Coords
        invalid centerBuilding
  = match vector_at Buildings index with
    | Returns cb' =>
        match getClosestNode nodes Footways cb' with
        | Returns cc' =>
            match Dijkstra fuel G (ID p1Coords) (ID cc') [] with
            | Returns r1 =>
                match Dijkstra fuel G (ID p2Coords) (ID cc') [] with
                | Returns r2 =>
                    let ran := [Ran (ID p1Coords) (ID cc') r1.1;
                                Ran (ID p2Coords) (ID cc') r2.1] in
                    if bool_decide (r1.1 = -1) || bool_decide (r2.1 = -1)
                    then
                      let rest := retry rounds fuel nodes Footways Buildings G midpoint
                                    p1Coords p2Coords invalid' cb' in
                      (head ++ ran ++ rest.1, rest.2)
                    else (head ++ ran, Returns (cb', cc', r1, r2))
                | OutOfRange => (head ++ [Ran (ID p1Coords) (ID cc') r1.1], OutOfRange)
                | Undefined => (head ++ [Ran (ID p1Coords) (ID cc') r1.1], Undefined)
                | OutOfFuel => (head ++ [Ran (ID p1Coords) (ID cc') r1.1], OutOfFuel)
                end
            | OutOfRange => (head, OutOfRange)
            | Undefined => (head, Undefined)
            | OutOfFuel => (head, OutOfFuel)
            end
        | OutOfRange => (head, OutOfRange)
        | Undefined => (head, Undefined)
        | OutOfFuel => (head, OutOfFuel)
        end
    | OutOfRange => (head, OutOfRange)
    | Undefined => (head, Undefined)
    | OutOfFuel => (head, OutOfFuel)
    end.
Proof.
  intros invalid' index head. cbn [Selector.retry]. fold invalid' index.
  unfold run.
  destruct (vector_at Buildings index) as [cb'| | |]; try reflexivity. prog_step.
  destruct (getClosestNode nodes Footways cb') as [cc'| | |]; try reflexivity. prog_step.
  destruct (Dijkstra fuel G (ID p1Coords) (ID cc') []) as [r1| | |]; try reflexivity.
  prog_step.
  destruct (Dijkstra fuel G (ID p2Coords) (ID cc') []) as [r2| | |]; try reflexivity.
  prog_step.
  destruct (bool_decide (r1.1 = -1) || bool_decide (r2.1 = -1)); reflexivity.
Qed.

Lemma retries_app l1 l2 : retries (l1 ++ l2) = (retries l1 + retries l2)%nat.
Proof. unfold retries. by rewrite List.filter_app, length_app. Qed.

Lemma candidates_positive Buildings (invalid : gset string) b :
  b ∈ Buildings -> Fullname b ∉ invalid -> (0 < candidates Buildings invalid)%nat.
Proof. intros Hb Hn. pose proof (candidates_exclude Buildings invalid b Hb Hn). lia. Qed.

(** What a log says about the selections made. *)
Definition selections_sound (Buildings : list BuildingInfo) (midpoint : Coordinates)
    {A} (r : prog A) : Prop :=
  forall inv idx, Selected inv idx ∈ r.1 ->
    idx = getCenterBuildingIndex Buildings midpoint inv
    /\ (idx = -1 -> r.2 = OutOfRange).

(** The loop makes no more rounds than buildings can still be selected;
    with as large a budget of rounds it is not the budget that ends it,
    provided the calls of [Dijkstra] end; and a selection that finds no
    building is followed by the exception of [Buildings.at(-1)]. *)
Lemma retry_spec fuel nodes Footways Buildings G midpoint p1Coords p2Coords
    rounds invalid centerBuilding :
  centerBuilding ∈ Buildings -> Fullname centerBuilding ∉ invalid ->
  (retries (retry rounds fuel nodes Footways Buildings G midpoint p1Coords p2Coords
              invalid centerBuilding).1
   <= candidates Buildings invalid)%nat
  /\ ((forall s t, Dijkstra fuel G s t [] <> OutOfFuel) ->
      (candidates Buildings invalid <= rounds)%nat ->
      (retry rounds fuel nodes Footways Buildings G midpoint p1Coords p2Coords
         invalid centerBuilding).2 <> OutOfFuel)
  /\ selections_sound Buildings midpoint
       (retry rounds fuel nodes Footways Buildings G midpoint p1Coords p2Coords
          invalid centerBuilding).
Proof.
  revert invalid centerBuilding.
  induction rounds as [|rounds IH]; intros invalid cb Hcb Hname.
  { pose proof (candidates_positive _ _ _ Hcb Hname). cbn.
    split_and!; [lia | intros; lia | intros inv idx []%elem_of_nil]. }
  pose proof (candidates_exclude _ _ _ Hcb Hname) as Hless.
  rewrite retry_round. cbv zeta.
  set (invalid' := {[ Fullname cb ]} ∪ invalid) in *.
  set (index := getCenterBuildingIndex Buildings midpoint invalid').
  assert (Hhead : forall inv idx (out : outcome (BuildingInfo * Coordinates * (Z * list Z) * (Z * list Z))),
    (index = -1 -> out = OutOfRange) ->
    Selected inv idx ∈ [SaidRetry; Selected invalid' index] ->
    idx = getCenterBuildingIndex Buildings midpoint inv /\ (idx = -1 -> out = OutOfRange)).
  { intros inv idx out Hout [[=]|[[= -> ->]|[]%elem_of_nil]%elem_of_cons]%elem_of_cons.
    done. }
  destruct (getCenterBuildingIndex_result Buildings midpoint invalid')
    as [Hidx|(cb' & Hat & Hcb' & Hname')]; fold index in Hidx || fold index in Hat.
  { rewrite Hidx, vector_at_negative by lia. rewrite Hidx in Hhead.
    split_and!; [cbn; lia | done | intros inv idx Hin; by apply Hhead]. }
  assert (Hpos : index <> -1).
  { intros Hneg. rewrite Hneg, vector_at_negative in Hat by lia. done. }
  rewrite Hat.
  pose proof (getClosestNode_fuel nodes Footways cb') as Hcn.
  destruct (getClosestNode nodes Footways cb') as [cc'| | |]; [|
    split_and!; [cbn; lia | done | intros inv idx Hin; by apply Hhead]..].
  destruct (Dijkstra fuel G (ID p1Coords) (ID cc') []) as [r1| | |] eqn:E1;
    [| split_and!; [cbn; lia | by (intros Htot ?; try (exfalso; exact (Htot _ _ E1)))
                   | intros inv idx Hin; by apply Hhead]..].
  assert (Hhead1 : forall inv idx (out : outcome (BuildingInfo * Coordinates * (Z * list Z) * (Z * list Z))) e,
    Selected inv idx ∈ [SaidRetry; Selected invalid' index] ++ [Ran (ID p1Coords) (ID cc') e] ->
    idx = getCenterBuildingIndex Buildings midpoint inv /\ (idx = -1 -> out = OutOfRange)).
  { intros inv idx out e [Hin|[[=]|[]%elem_of_nil]%elem_of_cons]%elem_of_app.
    by apply Hhead. }
  destruct (Dijkstra fuel G (ID p2Coords) (ID cc') []) as [r2| | |] eqn:E2;
    [| split_and!; [cbn; lia | by (intros Htot ?; try (exfalso; exact (Htot _ _ E2)))
                   | intros inv idx Hin; by eapply Hhead1]..].
  destruct (bool_decide (r1.1 = -1) || bool_decide (r2.1 = -1)).
  - destruct (IH invalid' cb' Hcb' Hname') as (IHa & IHb & IHc).
    cbn [fst snd]. split_and!.
    + rewrite !retries_app. cbn. lia.
    + intros Htot Hrounds. apply IHb; [done | lia].
    + intros inv idx [Hin|[Hin|Hin]%elem_of_app]%elem_of_app.
      * by apply Hhead.
      * apply elem_of_cons in Hin as [[=]|[[=]|[]%elem_of_nil]%elem_of_cons].
      * by apply IHc.
  - split_and!; [cbn; lia | done |].
    intros inv idx [Hin|Hin]%elem_of_app; [by apply Hhead|].
    apply elem_of_cons in Hin as [[=]|[[=]|[]%elem_of_nil]%elem_of_cons].
Qed.

(** *** A round of the application *)

Ltac log_cases Hin :=
  repeat match type of Hin with
         | _ ∈ _ ++ _ => apply elem_of_app in Hin as [Hin|Hin]
         | _ ∈ _ :: _ => apply elem_of_cons in Hin as [Hin|Hin]; [try discriminate Hin|]
         | _ ∈ [] => by apply elem_of_nil in Hin
         end.

Lemma vector_at_fuel {A} (v : list A) i : vector_at v i <> OutOfFuel.
Proof. unfold vector_at. case_bool_decide; [done|]. by destruct (v !! Z.to_nat i). Qed.

Lemma printPath_fuel path first : printPath path first <> OutOfFuel.
Proof.
  unfold printPath. destruct path; [done|]. unfold vector_at. cbn.
  by destruct first.
Qed.

(** The midpoint a round works with. *)
Definition midpoint_of (Buildings : list BuildingInfo) (firstIndex secondIndex : Z)
  : outcome Coordinates :=
  p1Building ← vector_at Buildings firstIndex;
  p2Building ← vector_at Buildings secondIndex;
  mret (centerBetween2Points (Lat (Coords p1Building)) (Lon (Coords p1Building))
                             (Lat (Coords p2Building)) (Lon (Coords p2Building))).

(** The three facts of [retry_spec], for a whole round. *)
Lemma query_spec rounds fuel nodes Footways Buildings G firstIndex secondIndex :
  (retries (query rounds fuel nodes Footways Buildings G firstIndex secondIndex).1
   <= length Buildings)%nat
  /\ ((forall s t, Dijkstra fuel G s t [] <> OutOfFuel) ->
      (length Buildings <= rounds)%nat ->
      (query rounds fuel nodes Footways Buildings G firstIndex secondIndex).2 <> OutOfFuel)
  /\ (forall midpoint, midpoint_of Buildings firstIndex secondIndex = Returns midpoint ->
        selections_sound Buildings midpoint
          (query rounds fuel nodes Footways Buildings G firstIndex secondIndex)).
Proof.
  unfold Selector.query, midpoint_of, run.
  pose proof (vector_at_fuel Buildings firstIndex) as Hv1.
  destruct (vector_at Buildings firstIndex) as [p1b| | |]; prog_step;
    [|split_and!; [cbn; lia | done | intros ? [=]]..].
  pose proof (vector_at_fuel Buildings secondIndex) as Hv2.
  destruct (vector_at Buildings secondIndex) as [p2b| | |]; prog_step;
    [|split_and!; [cbn; lia | done | intros ? [=]]..].
  cbn [mbind mret outcome_bind outcome_ret].
  set (midpoint := centerBetween2Points _ _ _ _).
  set (index := getCenterBuildingIndex Buildings midpoint ∅).
  assert (Hsel : forall inv idx (out : outcome answer) l,
    (index = -1 -> out = OutOfRange) ->
    (forall inv' idx', Selected inv' idx' ∉ l) ->
    Selected inv idx ∈ Selected ∅ index :: l ->
    idx = getCenterBuildingIndex Buildings midpoint inv /\ (idx = -1 -> out = OutOfRange)).
  { intros inv idx out l Hout Hl [[= -> ->]|Hin]%elem_of_cons; [done|].
    by apply Hl in Hin. }
  destruct (getCenterBuildingIndex_result Buildings midpoint ∅)
    as [Hidx|(cb & Hat & Hcb & Hname)]; fold index in Hidx || fold index in Hat.
  { rewrite Hidx, vector_at_negative by lia. prog_step.
    split_and!; [cbn; lia | done |]. intros ? [= <-] inv idx Hin. cbn [fst snd] in *.
    rewrite <- Hidx in Hin. eapply Hsel; [done | | exact Hin].
    intros ? ? []%elem_of_nil. }
  assert (Hpos : index <> -1).
  { intros Hneg. rewrite Hneg, vector_at_negative in Hat by lia. done. }
  rewrite Hat. prog_step.
  pose proof (getClosestNode_fuel nodes Footways p1b) as Hf1.
  destruct (getClosestNode nodes Footways p1b) as [p1c| | |]; prog_step;
    [|split_and!; [cbn; lia | done
                  | intros ? [= <-] inv idx Hin; cbn [fst snd] in *;
                    (eapply Hsel; [done | | exact Hin]); intros ? ? []%elem_of_nil]..].
  pose proof (getClosestNode_fuel nodes Footways p2b) as Hf2.
  destruct (getClosestNode nodes Footways p2b) as [p2c| | |]; prog_step;
    [|split_and!; [cbn; lia | done
                  | intros ? [= <-] inv idx Hin; cbn [fst snd] in *;
                    (eapply Hsel; [done | | exact Hin]); intros ? ? []%elem_of_nil]..].
  pose proof (getClosestNode_fuel nodes Footways cb) as Hf3.
  destruct (getClosestNode nodes Footways cb) as [cc| | |]; prog_step;
    [|split_and!; [cbn; lia | done
                  | intros ? [= <-] inv idx Hin; cbn [fst snd] in *;
                    (eapply Hsel; [done | | exact Hin]); intros ? ? []%elem_of_nil]..].
  destruct (Dijkstra fuel G (ID p1c) (ID cc) []) as [r1| | |] eqn:E1; prog_step;
    [|split_and!; [cbn; lia | by (intros Htot ?; try (exfalso; exact (Htot _ _ E1)))
                  | intros ? [= <-] inv idx Hin; cbn [fst snd] in *;
                    (eapply Hsel; [done | | exact Hin]); intros ? ? []%elem_of_nil]..].
  destruct (Dijkstra fuel G (ID p2c) (ID cc) []) as [r2| | |] eqn:E2; prog_step;
    [|split_and!; [cbn; lia | by (intros Htot ?; try (exfalso; exact (Htot _ _ E2)))
                  | intros ? [= <-] inv idx Hin; cbn [fst snd] in *;
                    (eapply Hsel; [done | | exact Hin]); intros ? ? Hl; log_cases Hl]..].
  destruct (Dijkstra fuel G (ID p1c) (ID p2c) []) as [rv| | |] eqn:E3; prog_step;
    [|split_and!; [cbn; lia | by (intros Htot ?; try (exfalso; exact (Htot _ _ E3)))
                  | intros ? [= <-] inv idx Hin; cbn [fst snd] in *;
                    (eapply Hsel; [done | | exact Hin]); intros ? ? Hl; log_cases Hl]..].
  case_bool_decide as Hrv; prog_step.
  { split_and!; [cbn; lia | done |]. intros ? [= <-] inv idx Hin. cbn [fst snd] in *.
    eapply Hsel; [done | | exact Hin]. intros ? ? Hl. log_cases Hl. }
  destruct (bool_decide (r1.1 = -1) || bool_decide (r2.1 = -1)); prog_step.
  - assert (Hempty : Fullname cb ∉ (∅ : gset string)) by apply not_elem_of_empty.
    destruct (retry_spec fuel nodes Footways Buildings G midpoint p1c p2c rounds ∅ cb
                Hcb Hempty) as (Ha & Hb & Hc).
    pose proof (candidates_le Buildings ∅) as Hle.
    destruct (retry rounds fuel nodes Footways Buildings G midpoint p1c p2c ∅ cb)
      as [log out]. cbn [fst snd] in *.
    assert (Hlog : forall inv idx (res : outcome answer),
      (out = OutOfRange -> res = OutOfRange) ->
      Selected inv idx ∈ Selected ∅ index :: Ran (ID p1c) (ID cc) r1.1
        :: Ran (ID p2c) (ID cc) r2.1 :: Ran (ID p1c) (ID p2c) rv.1 :: log ->
      idx = getCenterBuildingIndex Buildings midpoint inv /\ (idx = -1 -> res = OutOfRange)).
    { intros inv idx res Hres Hin.
      apply elem_of_cons in Hin as [[= -> ->]|Hin]; [done|].
      apply elem_of_cons in Hin as [[=]|Hin]. apply elem_of_cons in Hin as [[=]|Hin].
      apply elem_of_cons in Hin as [[=]|Hin].
      destruct (Hc inv idx Hin) as [-> Hout]. split; [done|]. auto. }
    destruct out as [[[[cb' cc'] r1'] r2']| | |]; prog_step;
      [|split_and!; [cbn; unfold retries in *; cbn; lia
                    | intros Htot Hr;
                      first [done | exfalso; apply Hb; [exact Htot | lia | reflexivity]]
                    | intros ? [= <-] inv idx Hin; cbn [fst snd] in *;
                      by (eapply Hlog; [|exact Hin])]..].
    pose proof (printPath_fuel r1'.2 r1'.2) as Hp1.
    destruct (printPath r1'.2 r1'.2); prog_step;
      [|split_and!; [rewrite ?app_nil_r; cbn; unfold retries in *; cbn; lia | done
                    | intros ? [= <-] inv idx Hin; cbn [fst snd] in *;
                      rewrite ?app_nil_r in Hin; by (eapply Hlog; [|exact Hin])]..].
    pose proof (printPath_fuel r2'.2 r1'.2) as Hp2.
    destruct (printPath r2'.2 r1'.2); prog_step;
      split_and!; try done;
      try (rewrite ?app_nil_r; cbn; unfold retries in *; cbn; lia);
      intros ? [= <-] inv idx Hin; cbn [fst snd] in *;
      rewrite ?app_nil_r in Hin; by (eapply Hlog; [|exact Hin]).
  - pose proof (printPath_fuel r1.2 r1.2) as Hp1.
    destruct (printPath r1.2 r1.2); prog_step;
      [|split_and!; [cbn; lia | done
                    | intros ? [= <-] inv idx Hin; cbn [fst snd] in *;
                      (eapply Hsel; [done | | exact Hin]); intros ? ? Hl; log_cases Hl]..].
    pose proof (printPath_fuel r2.2 r1.2) as Hp2.
    destruct (printPath r2.2 r1.2); prog_step;
      split_and!; try done; try (cbn; lia);
      intros ? [= <-] inv idx Hin; cbn [fst snd] in *;
      (eapply Hsel; [done | | exact Hin]); intros ? ? Hl; log_cases Hl.
Qed.

Lemma query_log_nil rounds fuel nodes Footways Buildings G firstIndex secondIndex :
  (forall midpoint, midpoint_of Buildings firstIndex secondIndex <> Returns midpoint) ->
  (query rounds fuel nodes Footways Buildings G firstIndex secondIndex).1 = [].
Proof.
  unfold Selector.query, midpoint_of. intros Hmid.
  destruct (vector_at Buildings firstIndex) as [p1b| | |]; prog_step; try done.
  destruct (vector_at Buildings secondIndex) as [p2b| | |]; prog_step; try done.
  cbn in Hmid. by edestruct Hmid.
Qed.

(** What the round does when the direct run between the two end points
    returns [rv]: with [-1] the answer is [DestinationUnreachable] and the
    log is the first selection, the two runs to the center, the direct run
    and the message; with another value the answer is not
    [DestinationUnreachable]. *)
Lemma query_direct_run rounds fuel nodes Footways Buildings G firstIndex secondIndex
    p1Building p2Building centerBuilding p1Coords p2Coords centerCoords r1 r2 rv :
  let midpoint :=
    centerBetween2Points (Lat (Coords p1Building)) (Lon (Coords p1Building))
                         (Lat (Coords p2Building)) (Lon (Coords p2Building)) in
  let index := getCenterBuildingIndex Buildings midpoint ∅ in
  vector_at Buildings firstIndex = Returns p1Building ->
  vector_at Buildings secondIndex = Returns p2Building ->
  vector_at Buildings index = Returns centerBuilding ->
  getClosestNode nodes Footways p1Building = Returns p1Coords ->
  getClosestNode nodes Footways p2Building = Returns p2Coords ->
  getClosestNode nodes Footways centerBuilding = Returns centerCoords ->
  Dijkstra fuel G (ID p1Coords) (ID centerCoords) [] = Returns r1 ->
  Dijkstra fuel G (ID p2Coords) (ID centerCoords) [] = Returns r2 ->
  Dijkstra fuel G (ID p1Coords) (ID p2Coords) [] = Returns rv ->
  ((query rounds fuel nodes Footways Buildings G firstIndex secondIndex).2
     = Returns DestinationUnreachable <-> rv.1 = -1)
  /\ (rv.1 = -1 ->
      (query rounds fuel nodes Footways Buildings G firstIndex secondIndex).1
      = [Selected ∅ index;
         Ran (ID p1Coords) (ID centerCoords) r1.1;
         Ran (ID p2Coords) (ID centerCoords) r2.1;
         Ran (ID p1Coords) (ID p2Coords) (-1);
         SaidUnreachable]).
Proof.
  intros midpoint index H1 H2 Hc Hn1 Hn2 Hnc Hr1 Hr2 Hrv.
  unfold Selector.query, run. rewrite H1. prog_step. rewrite H2. prog_step.
  fold midpoint. fold index. rewrite Hc. prog_step.
  rewrite Hn1. prog_step. rewrite Hn2. prog_step. rewrite Hnc. prog_step.
  rewrite Hr1. prog_step. rewrite Hr2. prog_step. rewrite Hrv. prog_step.
  case_bool_decide as Hdirect; prog_step.
  { split; [done|]. intros _. by rewrite Hdirect. }
  split; [|done]. split; [|done].
  destruct (bool_decide (r1.1 = -1) || bool_decide (r2.1 = -1)); prog_step.
  - destruct (retry rounds fuel nodes Footways Buildings G midpoint p1Coords p2Coords
                ∅ centerBuilding) as [log [[[[cb' cc'] r1'] r2']| | |]];
      prog_step; try done.
    destruct (printPath r1'.2 r1'.2); prog_step; try done.
    destruct (printPath r2'.2 r1'.2); prog_step; done.
  - destruct (printPath r1.2 r1.2); prog_step; try done.
    destruct (printPath r2.2 r1.2); prog_step; done.
Qed.

End SelectorFacts.

(** C3, as the code has it: the round has no result for the case that no
    building is left to select. When a selection is made while the name of
    every building is in [invalidCenters], [getCenterBuildingIndex] returns
    [-1] and [Buildings.at(-1)] throws [std::out_of_range]: the round ends
    with that exception, not with an answer. *)
Theorem exhausted_candidates_throw `{Engine.PriorityQueue Q}
    (distBetween2Points : Z -> Z -> Z -> Z -> Z)
    (centerBetween2Points : Z -> Z -> Z -> Z -> Selector.Coordinates)
    (rounds fuel : nat) (nodes : gmap Z Selector.Coordinates)
    (Footways : list Selector.FootwayInfo) (Buildings : list Selector.BuildingInfo)
    (G : Graph.graph) (firstIndex secondIndex : Z)
    (invalidCenters : gset string) (index : Z) :
  Selector.Selected invalidCenters index
    ∈ (Selector.query distBetween2Points centerBetween2Points rounds fuel nodes Footways
         Buildings G firstIndex secondIndex).1 ->
  (forall b, b ∈ Buildings -> Selector.Fullname b ∈ invalidCenters) ->
  index = -1
  /\ (Selector.query distBetween2Points centerBetween2Points rounds fuel nodes Footways
        Buildings G firstIndex secondIndex).2 = OutOfRange.
Proof.
  intros Hin Hall.
  destruct (midpoint_of centerBetween2Points Buildings firstIndex secondIndex)
    as [midpoint| | |] eqn:Hmid.
  2-4: rewrite (query_log_nil distBetween2Points centerBetween2Points) in Hin
    by (intros m Hm; rewrite Hm in Hmid; discriminate Hmid);
    by apply elem_of_nil in Hin.
  destruct (query_spec distBetween2Points centerBetween2Points rounds fuel nodes Footways
              Buildings G firstIndex secondIndex) as (_ & _ & Hsel).
  destruct (Hsel midpoint Hmid invalidCenters index Hin) as [Hidx Hout].
  rewrite (getCenterBuildingIndex_none distBetween2Points Buildings midpoint
             invalidCenters Hall) in Hidx.
  split; [done|]. by apply Hout.
Qed.

(** The round for the first and the third of three buildings that are all
    named Hall, the second standing where no footway leads from the other
    two. *)
Lemma bridge_query :
  Selector.query Selector.planar_distance Selector.planar_center (H := list_queue)
    3 13 Selector.row_nodes Selector.bridge_footways Selector.halls
    Selector.bridge_graph 0 2
  = ([Selector.Selected ∅ 1; Selector.Ran 1 2 (-1); Selector.Ran 3 2 (-1);
      Selector.Ran 1 3 8; Selector.SaidRetry; Selector.Selected {["Hall"]} (-1)],
     OutOfRange).
Proof. vm_compute. reflexivity. Qed.

Lemma halls_names b :
  b ∈ Selector.halls -> Selector.Fullname b ∈ ({["Hall"]} : gset string).
Proof.
  intros Hb. apply list_elem_of_In in Hb. cbn in Hb.
  destruct Hb as [<-|[<-|[<-|[]]]]; by apply elem_of_singleton.
Qed.

Lemma exhausted_candidates_throw_witness :
  -1 = -1
  /\ (Selector.query Selector.planar_distance Selector.planar_center (H := list_queue)
        3 13 Selector.row_nodes Selector.bridge_footways Selector.halls
        Selector.bridge_graph 0 2).2 = OutOfRange.
Proof.
  apply (exhausted_candidates_throw (H := list_queue) Selector.planar_distance
           Selector.planar_center 3 13 Selector.row_nodes Selector.bridge_footways
           Selector.halls Selector.bridge_graph 0 2 {["Hall"]} (-1)).
  - rewrite bridge_query. cbn [fst]. do 5 apply list_elem_of_further.
    apply list_elem_of_here.
  - apply halls_names.
Defined.

(** C3 fails on the code as it is stated: on the graph [main] builds from
    the footways 1-3, 2-4 and 2-5, with three buildings named Hall at the
    nodes 1, 2 and 3, the round for the first and the third selects the
    second as center, finds it out of reach, puts the name Hall into
    [invalidCenters] and selects again; every building has that name, the
    index is [-1] and [Buildings.at(-1)] throws. The round ends with the
    exception and gives no answer. *)
Lemma no_center_left_throws :
  Selector.mainGraph Selector.planar_distance Selector.row_nodes Selector.bridge_footways
    = Returns Selector.bridge_graph
  /\ (forall b, b ∈ Selector.halls -> Selector.Fullname b ∈ ({["Hall"]} : gset string))
  /\ Selector.query Selector.planar_distance Selector.planar_center (H := list_queue)
       3 13 Selector.row_nodes Selector.bridge_footways Selector.halls
       Selector.bridge_graph 0 2
     = ([Selector.Selected ∅ 1; Selector.Ran 1 2 (-1); Selector.Ran 3 2 (-1);
         Selector.Ran 1 3 8; Selector.SaidRetry; Selector.Selected {["Hall"]} (-1)],
        OutOfRange).
Proof.
  split_and!.
  - vm_compute. reflexivity.
  - apply halls_names.
  - apply bridge_query.
Qed.

(** C5: the loop that looks for the next closest building makes at most as
    many rounds as there are buildings, and a round of the application with
    a budget of that many rounds ends on its own account: it returns its
    answer or an [at()] throws. Every round that fails a center puts the
    name of a building that could still be selected into [invalidCenters],
    and the buildings are finitely many. The graph is one built by
    [addVertex] and [addEdge] calls, with non-negative weights and no
    vertex [-1], so that the calls of [Dijkstra] end. *)
Theorem retry_cycle_bounded `{Engine.PriorityQueue Q}
    (distBetween2Points : Z -> Z -> Z -> Z -> Z)
    (centerBetween2Points : Z -> Z -> Z -> Z -> Selector.Coordinates)
    (ops : list Graph.op) (nodes : gmap Z Selector.Coordinates)
    (Footways : list Selector.FootwayInfo) (Buildings : list Selector.BuildingInfo)
    (firstIndex secondIndex : Z) (rounds fuel : nat) :
  Paths.nonnegative (Graph.build ops) -> -1 ∉ Graph.Vertices (Graph.build ops) ->
  (Engine.work (Graph.build ops) <= fuel)%nat -> (length Buildings <= rounds)%nat ->
  (Selector.retries
     (Selector.query distBetween2Points centerBetween2Points rounds fuel nodes Footways
        Buildings (Graph.build ops) firstIndex secondIndex).1 <= length Buildings)%nat
  /\ (Selector.query distBetween2Points centerBetween2Points rounds fuel nodes Footways
        Buildings (Graph.build ops) firstIndex secondIndex).2 <> OutOfFuel.
Proof.
  intros Hnn Hm Hfuel Hrounds.
  destruct (query_spec distBetween2Points centerBetween2Points rounds fuel nodes Footways
              Buildings (Graph.build ops) firstIndex secondIndex) as (Ha & Hb & _).
  split; [done|]. apply Hb; [|done].
  intros s t. apply Dijkstra_ends; [apply wf_build | done..].
Qed.

Lemma retry_cycle_bounded_witness :
  (Selector.retries
     (Selector.query Selector.planar_distance Selector.planar_center (H := list_queue)
        3 13 Selector.row_nodes Selector.bridge_footways Selector.halls
        Selector.bridge_graph 0 2).1 <= 3)%nat
  /\ (Selector.query Selector.planar_distance Selector.planar_center (H := list_queue)
        3 13 Selector.row_nodes Selector.bridge_footways Selector.halls
        Selector.bridge_graph 0 2).2 <> OutOfFuel.
Proof.
  apply (retry_cycle_bounded (H := list_queue) Selector.planar_distance
           Selector.planar_center
           [Graph.AddVertex 1; Graph.AddVertex 2; Graph.AddVertex 3; Graph.AddVertex 4;
            Graph.AddVertex 5;
            Graph.AddEdge 1 3 8; Graph.AddEdge 3 1 8; Graph.AddEdge 2 4 8;
            Graph.AddEdge 4 2 8; Graph.AddEdge 2 5 12; Graph.AddEdge 5 2 12]
           Selector.row_nodes Selector.bridge_footways Selector.halls 0 2 3 13).
  - apply nonnegativeb_correct; [apply wf_build | vm_compute; reflexivity].
  - intros Hin. apply list_elem_of_In in Hin. vm_compute in Hin.
    repeat (destruct Hin as [Hin|Hin]; [discriminate Hin|]). destruct Hin.
  - vm_compute. lia.
  - vm_compute. lia.
Defined.

(** C4, as the code has it: when the direct run of [Dijkstra] between the
    nodes of the two end points returns [-1], the round answers
    [DestinationUnreachable] and makes no retry: nothing enters
    [invalidCenters] and no second center is selected. By then it has
    selected the first center and run [Dijkstra] from either end point to
    it, for these three calls come before the direct run. With any other
    value of the direct run the answer is not [DestinationUnreachable]. *)
Theorem unreachable_reported_after_first_center `{Engine.PriorityQueue Q}
    (distBetween2Points : Z -> Z -> Z -> Z -> Z)
    (centerBetween2Points : Z -> Z -> Z -> Z -> Selector.Coordinates)
    (rounds fuel : nat) (nodes : gmap Z Selector.Coordinates)
    (Footways : list Selector.FootwayInfo) (Buildings : list Selector.BuildingInfo)
    (G : Graph.graph) (firstIndex secondIndex : Z)
    (p1Building p2Building centerBuilding : Selector.BuildingInfo)
    (p1Coords p2Coords centerCoords : Selector.Coordinates) (r1 r2 rv : Z * list Z) :
  let midpoint :=
    centerBetween2Points
      (Selector.Lat (Selector.Coords p1Building)) (Selector.Lon (Selector.Coords p1Building))
      (Selector.Lat (Selector.Coords p2Building)) (Selector.Lon (Selector.Coords p2Building)) in
  let index := Selector.getCenterBuildingIndex distBetween2Points Buildings midpoint ∅ in
  vector_at Buildings firstIndex = Returns p1Building ->
  vector_at Buildings secondIndex = Returns p2Building ->
  vector_at Buildings index = Returns centerBuilding ->
  Selector.getClosestNode distBetween2Points nodes Footways p1Building = Returns p1Coords ->
  Selector.getClosestNode distBetween2Points nodes Footways p2Building = Returns p2Coords ->
  Selector.getClosestNode distBetween2Points nodes Footways centerBuilding
    = Returns centerCoords ->
  Engine.Dijkstra fuel G (Selector.ID p1Coords) (Selector.ID centerCoords) [] = Returns r1 ->
  Engine.Dijkstra fuel G (Selector.ID p2Coords) (Selector.ID centerCoords) [] = Returns r2 ->
  Engine.Dijkstra fuel G (Selector.ID p1Coords) (Selector.ID p2Coords) [] = Returns rv ->
  ((Selector.query distBetween2Points centerBetween2Points rounds fuel nodes Footways
      Buildings G firstIndex secondIndex).2 = Returns Selector.DestinationUnreachable
   <-> rv.1 = -1)
  /\ (rv.1 = -1 ->
      (Selector.query distBetween2Points centerBetween2Points rounds fuel nodes Footways
         Buildings G firstIndex secondIndex).1
      = [Selector.Selected ∅ index;
         Selector.Ran (Selector.ID p1Coords) (Selector.ID centerCoords) r1.1;
         Selector.Ran (Selector.ID p2Coords) (Selector.ID centerCoords) r2.1;
         Selector.Ran (Selector.ID p1Coords) (Selector.ID p2Coords) (-1);
         Selector.SaidUnreachable]).
Proof. intros midpoint index. apply query_direct_run. Qed.

(** The buildings Art and Chemistry on the two sides of a campus whose
    footways do not meet. *)
Lemma unreachable_reported_after_first_center_witness :
  ((Selector.query Selector.planar_distance Selector.planar_center (H := list_queue)
      3 13 Selector.row_nodes Selector.split_footways Selector.departments
      Selector.split_graph 0 2).2 = Returns Selector.DestinationUnreachable
   <-> ((-1, []) : Z * list Z).1 = -1)
  /\ (((-1, []) : Z * list Z).1 = -1 ->
      (Selector.query Selector.planar_distance Selector.planar_center (H := list_queue)
         3 13 Selector.row_nodes Selector.split_footways Selector.departments
         Selector.split_graph 0 2).1
      = [Selector.Selected ∅ 1; Selector.Ran 1 2 4; Selector.Ran 4 2 (-1);
         Selector.Ran 1 4 (-1); Selector.SaidUnreachable]).
Proof.
  apply (unreachable_reported_after_first_center (H := list_queue)
           Selector.planar_distance Selector.planar_center 3 13
           Selector.row_nodes Selector.split_footways Selector.departments
           Selector.split_graph 0 2
           (Selector.mkBuilding "Art" "A" (Selector.mkCoordinates 11 0 0))
           (Selector.mkBuilding "Chemistry" "C" (Selector.mkCoordinates 13 12 0))
           (Selector.mkBuilding "Biology" "B" (Selector.mkCoordinates 12 4 0))
           (Selector.mkCoordinates 1 0 0) (Selector.mkCoordinates 4 12 0)
           (Selector.mkCoordinates 2 4 0)
           (4, [2; 1]) (-1, []) (-1, []));
    vm_compute; reflexivity.
Defined.

(** C4 fails on the code as it is stated: on the graph [main] builds from
    the footways 1-2, 1-3 and 4-5, no walk leads from node 1 (building Art)
    to node 4 (building Chemistry); the round answers
    [DestinationUnreachable], but only after it has selected the center
    Biology (index 1) and run [Dijkstra] from node 1 and from node 4 to the
    node 2 of that center. *)
Lemma center_tried_before_unreachable :
  Selector.mainGraph Selector.planar_distance Selector.row_nodes Selector.split_footways
    = Returns Selector.split_graph
  /\ (forall L, ~ Paths.walk Selector.split_graph 1 4 L)
  /\ Selector.query Selector.planar_distance Selector.planar_center (H := list_queue)
       3 13 Selector.row_nodes Selector.split_footways Selector.departments
       Selector.split_graph 0 2
     = ([Selector.Selected ∅ 1; Selector.Ran 1 2 4; Selector.Ran 4 2 (-1);
         Selector.Ran 1 4 (-1); Selector.SaidUnreachable],
        Returns Selector.DestinationUnreachable).
Proof.
  split_and!.
  - vm_compute. reflexivity.
  - intros L [?|[?|?]]%split_graph_side; discriminate.
  - vm_compute. reflexivity.
Qed.
